(** * TraceCleanupSolver: the cleanup pipeline controller

    A shallow embedding of
    [lib/solvers/TraceCleanupSolver/TraceCleanupSolver.ts] and the
    properties of its state machine.

    The controller is a mutable object advanced by [_step]; here it is a
    record threaded through pure functions.  A JavaScript [Map] iterates in
    insertion order and [Array.from(map.values())] exposes that order to the
    transforms and to [getOutput], so maps are association lists with
    unique keys that keep the position of the first insertion. *)

From Stdlib Require Import List String Bool Arith ZArith Lia.
From Stdlib Require Import DecimalString.
Import ListNotations.
Local Open Scope string_scope.
Local Open Scope list_scope.

Set Implicit Arguments.

(** ** JavaScript [Map] with string keys *)

Module JsMap.
Section Defs.
Variable V : Type.

Definition t := list (string * V).

Definition empty : t := [].

Fixpoint get (k : string) (m : t) : option V :=
    match m with
    | [] => None
    | (k', v) :: m' => if String.eqb k' k then Some v else get k m'
    end.

Definition has (k : string) (m : t) : bool :=
    match get k m with Some _ => true | None => false end.

(** [map.set(k, v)]: an existing key keeps its place, a new key goes last. *)
Fixpoint set (k : string) (v : V) (m : t) : t :=
    match m with
    | [] => [(k, v)]
    | (k', v') :: m' =>
        if String.eqb k' k then (k', v) :: m' else (k', v') :: set k v m'
    end.

(** [new Map(entries)] *)
Definition of_entries (es : list (string * V)) : t :=
    fold_left (fun m e => set (fst e) (snd e) m) es empty.

(** [Array.from(map.values())] *)
Definition values (m : t) : list V := map snd m.

Definition keys (m : t) : list string := map fst m.

(** Every entry is filed under the key that [key_of] reads off its value. *)
Definition keyed_by (key_of : V -> string) (m : t) : Prop :=
  Forall (fun e => key_of (snd e) = fst e) m.

Lemma get_set_same (k : string) (v : V) (m : t) : get k (set k v m) = Some v.
Proof.
  induction m as [|[k' v'] m IH]; simpl.
  - now rewrite String.eqb_refl.
  - destruct (String.eqb k' k) eqn:E; simpl; rewrite E; auto.
Qed.

Lemma get_set_other (k k' : string) (v : V) (m : t) :
  k <> k' -> get k' (set k v m) = get k' m.
Proof.
  intros Hne.
  induction m as [|[k0 v0] m IH]; simpl.
  - destruct (String.eqb_spec k k'); congruence.
  - destruct (String.eqb_spec k0 k) as [->|Hk]; simpl.
    + destruct (String.eqb_spec k k'); congruence.
    + now rewrite IH.
Qed.

Lemma get_None_keys (k : string) (m : t) : get k m = None <-> ~ In k (keys m).
Proof.
  induction m as [|[k0 v0] m IH]; simpl.
  - tauto.
  - destruct (String.eqb_spec k0 k) as [->|Hk].
    + split; [discriminate | intros H; exfalso; apply H; now left].
    + rewrite IH. split; [intros H [?|?]; auto | intros H ?; apply H; now right].
Qed.

Lemma get_Some_keys (k : string) (v : V) (m : t) : get k m = Some v -> In k (keys m).
Proof.
  intros H. destruct (in_dec string_dec k (keys m)) as [|Hn]; auto.
  apply get_None_keys in Hn. congruence.
Qed.

Lemma keys_get (k : string) (m : t) : In k (keys m) -> exists v, get k m = Some v.
Proof.
  intros H. destruct (get k m) as [v|] eqn:E; eauto.
  apply get_None_keys in E. contradiction.
Qed.

(** Overwriting a key that is present keeps the key sequence. *)
Lemma keys_set_present (k : string) (v : V) (m : t) :
  In k (keys m) -> keys (set k v m) = keys m.
Proof.
  induction m as [|[k0 v0] m IH]; simpl; [tauto|].
  intros H. destruct (String.eqb_spec k0 k) as [->|Hk]; simpl; auto.
  f_equal. apply IH. destruct H; congruence.
Qed.

(** A new key goes to the end. *)
Lemma keys_set_absent (k : string) (v : V) (m : t) :
  ~ In k (keys m) -> keys (set k v m) = keys m ++ [k].
Proof.
  induction m as [|[k0 v0] m IH]; simpl; auto.
  intros H. destruct (String.eqb_spec k0 k) as [->|Hk]; simpl.
  - exfalso. apply H. now left.
  - f_equal. apply IH. tauto.
Qed.

Lemma in_keys_set (k k' : string) (v : V) (m : t) :
  In k' (keys (set k v m)) <-> k = k' \/ In k' (keys m).
Proof.
  destruct (in_dec string_dec k (keys m)) as [Hin|Hn].
  - rewrite keys_set_present by assumption.
    split; [tauto | intros [<-|?]; assumption].
  - rewrite keys_set_absent by assumption. rewrite in_app_iff. simpl. tauto.
Qed.

Lemma NoDup_keys_set (k : string) (v : V) (m : t) :
  NoDup (keys m) -> NoDup (keys (set k v m)).
Proof.
  intros H. destruct (in_dec string_dec k (keys m)) as [Hin|Hn].
  - now rewrite keys_set_present.
  - rewrite keys_set_absent by assumption.
    apply NoDup_app; [assumption | repeat constructor; simpl; tauto |].
    intros a Ha [<-|[]]. contradiction.
Qed.

Lemma keyed_by_set (key_of : V -> string) (k : string) (v : V) (m : t) :
  key_of v = k -> keyed_by key_of m -> keyed_by key_of (set k v m).
Proof.
  intros Hv. unfold keyed_by.
  induction m as [|[k0 v0] m IH]; simpl; intros H.
  - repeat constructor. assumption.
  - inversion H as [|? ? H0 Hm]; subst.
    destruct (String.eqb_spec k0 (key_of v)) as [->|Hk]; constructor; auto.
Qed.

Lemma keyed_by_get (key_of : V -> string) (k : string) (v : V) (m : t) :
  keyed_by key_of m -> get k m = Some v -> key_of v = k.
Proof.
  unfold keyed_by. induction m as [|[k0 v0] m IH]; simpl; intros H; [discriminate|].
  inversion H as [|? ? H0 Hm]; subst. simpl in H0.
  destruct (String.eqb_spec k0 k) as [->|Hk]; intros E; auto. congruence.
Qed.

(** For a map filed by [key_of], the keys can be read off the values. *)
Lemma keyed_by_values (key_of : V -> string) (m : t) :
  keyed_by key_of m -> map key_of (values m) = keys m.
Proof.
  unfold keyed_by, values, keys. induction 1 as [|[k v] m H0 Hm IH]; simpl; auto.
  simpl in H0. now rewrite H0, IH.
Qed.

Lemma of_entries_from (es : list (string * V)) (m : t) :
  forall k, In k (keys (fold_left (fun m e => set (fst e) (snd e) m) es m))
            <-> In k (keys m) \/ In k (map fst es).
Proof.
  revert m. induction es as [|[k0 v0] es IH]; simpl; intros m k.
  - tauto.
  - rewrite IH, in_keys_set. tauto.
Qed.

(** [new Map(entries)] has exactly the keys of the entries. *)
Lemma in_keys_of_entries (es : list (string * V)) (k : string) :
  In k (keys (of_entries es)) <-> In k (map fst es).
Proof.
  unfold of_entries. rewrite of_entries_from. simpl. tauto.
Qed.

Lemma NoDup_keys_of_entries (es : list (string * V)) : NoDup (keys (of_entries es)).
Proof.
  unfold of_entries. generalize (@NoDup_nil string).
  change (@nil string) with (keys empty). generalize empty.
  induction es as [|[k0 v0] es IH]; simpl; intros m Hm; auto.
  apply IH. now apply NoDup_keys_set.
Qed.

Lemma keyed_by_of_entries (key_of : V -> string) (vs : list V) :
  keyed_by key_of (of_entries (map (fun v => (key_of v, v)) vs)).
Proof.
  unfold of_entries.
  assert (H : keyed_by key_of empty) by constructor.
  revert H. generalize empty.
  induction vs as [|v vs IH]; simpl; intros m Hm; auto.
  apply IH. now apply keyed_by_set.
Qed.

(** Entries with distinct keys are stored as they come. *)
Lemma of_entries_NoDup (es : list (string * V)) :
  NoDup (map fst es) -> of_entries es = es.
Proof.
  unfold of_entries, empty.
  assert (G : forall (m : t),
             NoDup (keys m ++ map fst es) ->
             fold_left (fun m e => set (fst e) (snd e) m) es m = m ++ es).
  { induction es as [|[k0 v0] es IH]; simpl; intros m H.
    - now rewrite app_nil_r.
    - assert (Hk : ~ In k0 (keys m)).
      { intros Hin. apply NoDup_remove_2 in H. apply H.
        apply in_or_app. now left. }
      rewrite IH.
      + assert (E : set k0 v0 m = m ++ [(k0, v0)]).
        { clear - Hk. induction m as [|[k1 v1] m IHm]; simpl; auto.
          simpl in Hk. destruct (String.eqb_spec k1 k0) as [->|?]; [tauto|].
          f_equal. apply IHm. tauto. }
        rewrite E, <- app_assoc. reflexivity.
      + rewrite keys_set_absent by assumption.
        rewrite <- app_assoc. exact H. }
  intros H. apply (G []). exact H.
Qed.

Lemma Forall_values_set (P : V -> Prop) (k : string) (v : V) (m : t) :
  P v -> Forall P (values m) -> Forall P (values (set k v m)).
Proof.
  intros Hv. unfold values.
  induction m as [|[k0 v0] m IH]; simpl; intros H.
  - repeat constructor. assumption.
  - inversion H; subst.
    destruct (String.eqb k0 k); simpl; constructor; auto.
Qed.

Lemma Forall_values_get (P : V -> Prop) (k : string) (v : V) (m : t) :
  Forall P (values m) -> get k m = Some v -> P v.
Proof.
  unfold values. induction m as [|[k0 v0] m IH]; simpl; intros H; [discriminate|].
  inversion H; subst.
  destruct (String.eqb k0 k); intros E; auto. congruence.
Qed.

Lemma set_absent (k : string) (v : V) (m : t) :
  ~ In k (keys m) -> set k v m = m ++ [(k, v)].
Proof.
  induction m as [|[k0 v0] m IH]; simpl; auto.
  intros H. destruct (String.eqb_spec k0 k) as [->|Hk]; [tauto|].
  f_equal. apply IH. tauto.
Qed.

Lemma has_keys (k : string) (m : t) : has k m = true <-> In k (keys m).
Proof.
  unfold has. destruct (get k m) as [v|] eqn:E.
  - split; auto. intros _. eapply get_Some_keys; eauto.
  - apply get_None_keys in E. split; [discriminate | contradiction].
Qed.

Lemma length_set (k : string) (v : V) (m : t) :
  List.length (set k v m) = if has k m then List.length m else S (List.length m).
Proof.
  unfold has. induction m as [|[k0 v0] m IH]; simpl; auto.
  destruct (String.eqb k0 k); simpl; auto.
  rewrite IH. destruct (get k m); reflexivity.
Qed.

Lemma in_values_set (k : string) (v v' : V) (m : t) :
  In v' (values (set k v m)) -> v' = v \/ In v' (values m).
Proof.
  unfold values. induction m as [|[k0 v0] m IH]; simpl.
  - intros [<-|[]]. now left.
  - destruct (String.eqb k0 k); simpl.
    + intros [<-|H]; auto.
    + intros [<-|H]; auto. destruct (IH H); auto.
Qed.

Lemma get_in_values (k : string) (v : V) (m : t) :
  get k m = Some v -> In v (values m).
Proof.
  unfold values. induction m as [|[k0 v0] m IH]; simpl; [discriminate|].
  destruct (String.eqb k0 k); intros E; auto.
  injection E as <-. now left.
Qed.

Lemma get_in_entries (k : string) (v : V) (m : t) :
  NoDup (keys m) -> In (k, v) m -> get k m = Some v.
Proof.
  induction m as [|[k0 v0] m IH]; simpl; [tauto|].
  intros Hnd [E|Hin].
  - injection E as -> ->. now rewrite String.eqb_refl.
  - inversion Hnd as [|? ? Hk Hm]; subst.
    destruct (String.eqb_spec k0 k) as [->|Hne]; auto.
    exfalso. apply Hk. apply (in_map fst) in Hin. exact Hin.
Qed.

(** [new Map(entries)] holds no value that was not in the entries. *)
Lemma in_values_of_entries (es : list (string * V)) (v : V) :
  In v (values (of_entries es)) -> In v (map snd es).
Proof.
  unfold of_entries.
  assert (G : forall m, In v (values (fold_left (fun m e => set (fst e) (snd e) m) es m))
                        -> In v (values m) \/ In v (map snd es)).
  { induction es as [|[k0 v0] es IH]; simpl; intros m H; auto.
    destruct (IH _ H) as [H'|H']; auto.
    apply in_values_set in H'. destruct H' as [->|H']; auto. }
  intros H. destruct (G empty H) as [[]|H']; exact H'.
Qed.

(** A map filed by [key_of] with distinct keys is what [new Map] builds
    from its own values. *)
Lemma of_entries_values (key_of : V -> string) (m : t) :
  keyed_by key_of m -> NoDup (keys m) ->
  of_entries (map (fun v => (key_of v, v)) (values m)) = m.
Proof.
  intros Hk Hnd.
  assert (E : map (fun v => (key_of v, v)) (values m) = m).
  { unfold keyed_by, values in *.
    induction Hk as [|[k v] m H0 Hm IH]; simpl; auto.
    simpl in H0. rewrite H0. f_equal. apply IH.
    now inversion Hnd. }
  rewrite E. now apply of_entries_NoDup.
Qed.

End Defs.
End JsMap.

Arguments JsMap.empty {V}.

(** ** Data model *)

Inductive PipelineStep :=
| minimizing_turns
| balancing_l_shapes
| untangling_traces.

(** What one call of [_step] does to the outside world and to its queue, in
    the order the source does it. *)
Inductive Effect :=
| SubSolverStep
    (* this.activeSubSolver.step() *)
| SubSolverOutputAdopted
    (* this.outputTraces = output.traces, map rebuilt *)
| SubSolverInstantiated
    (* new UntangleTraceSubsolver(...) *)
| QueueReseeded
    (* this.traceIdQueue = Array.from(this.input.allTraces.map(...)) *)
| SolvedFlagSet
    (* this.solved = true *)
| TraceDequeued (step : PipelineStep) (id : string)
    (* this.traceIdQueue.shift() *)
| TransformApplied (step : PipelineStep) (id : string)
    (* minimizeTurnsWithFilteredLabels(...) or balanceZShapes(...) *).

Definition PipelineStep_eq_dec (a b : PipelineStep) : {a = b} + {a <> b}.
Proof. decide equality. Defined.

Definition Effect_eq_dec (a b : Effect) : {a = b} + {a <> b}.
Proof.
  decide equality; first [apply string_dec | apply PipelineStep_eq_dec].
Defined.

Definition visit_eq_dec (a b : PipelineStep * string) : {a = b} + {a <> b}.
Proof.
  decide equality; first [apply string_dec | apply PipelineStep_eq_dec].
Defined.

Section Controller.

(** JavaScript numbers.  Coordinates are only copied, compared with [===]
    and rendered into the merge keys, so the number type is a parameter
    together with those two operations. *)
Variable num : Type.
(** [a === b] on numbers. *)
Variable num_eq : num -> num -> bool.
(** The text of [Math.round(v * 100)] inside a template literal. *)
Variable round100 : num -> string.

Record Point := mkPoint { x : num; y : num }.

(** The fields of [SolvedTracePath] that the controller reads. *)
Record SolvedTracePath := mkTrace {
  mspPairId : string;
  globalConnNetId : string;
  tracePath : list Point
}.

(** Opaque context handed through to the collaborators. *)
Variable InputProblem : Type.
Variable NetLabelPlacement : Type.
Variable MergedLabelNetIdMap : Type.

Record TraceCleanupSolverInput := mkInput {
  inputProblem : InputProblem;
  allTraces : list SolvedTracePath;
  allLabelPlacements : list NetLabelPlacement;
  mergedLabelNetIdMap : MergedLabelNetIdMap;
  paddingBuffer : num
}.

(** [{ ...this.input, allTraces: ts }] *)
Definition with_allTraces (ts : list SolvedTracePath)
  (i : TraceCleanupSolverInput) : TraceCleanupSolverInput :=
  mkInput (inputProblem i) ts (allLabelPlacements i) (mergedLabelNetIdMap i)
    (paddingBuffer i).

(** *** Collaborators that live in other files *)

(** [is4PointRectangle(path)] *)
Variable is4PointRectangle : list Point -> bool.

(** [minimizeTurnsWithFilteredLabels({...input, targetMspConnectionPairId,
    traces})] and [balanceZShapes] with the same arguments. *)
Variable minimizeTurnsWithFilteredLabels :
  TraceCleanupSolverInput -> string -> list SolvedTracePath -> SolvedTracePath.
Variable balanceZShapes :
  TraceCleanupSolverInput -> string -> list SolvedTracePath -> SolvedTracePath.

(** Layers of a [GraphicsObject] that the controller only initialises. *)
Variable GPoint GRect GCircle GText : Type.

Record Line := mkLine { line_points : list Point; strokeColor : string }.

Record GraphicsObject := mkGraphics {
  lines : option (list Line);
  points : option (list GPoint);
  rects : option (list GRect);
  circles : option (list GCircle);
  texts : option (list GText)
}.

(** [visualizeInputProblem(inputProblem, { chipAlpha: 0.1, connectionAlpha: 0.1 })] *)
Variable visualizeInputProblem : InputProblem -> GraphicsObject.

(** [UntangleTraceSubsolver], seen through the part of [BaseSolver] the
    controller calls.  The object is mutated by [step()]; here [sub_step]
    returns the stepped solver. *)
Variable UntangleTraceSubsolver : Type.
Variable new_UntangleTraceSubsolver :
  TraceCleanupSolverInput -> UntangleTraceSubsolver.
Variable sub_step : UntangleTraceSubsolver -> UntangleTraceSubsolver.
Variable sub_solved : UntangleTraceSubsolver -> bool.
Variable sub_failed : UntangleTraceSubsolver -> bool.
Variable sub_getOutput : UntangleTraceSubsolver -> list SolvedTracePath.
Variable sub_visualize : UntangleTraceSubsolver -> GraphicsObject.

(** *** The controller object *)

Record TraceCleanupSolver := mkSolver {
  input : TraceCleanupSolverInput;
  outputTraces : list SolvedTracePath;
  traceIdQueue : list string;
  tracesMap : JsMap.t SolvedTracePath;
  pipelineStep : PipelineStep;
  activeTraceId : option string;
  activeSubSolver : option UntangleTraceSubsolver;
  solved : bool
}.

Definition set_outputTraces (v : list SolvedTracePath) (s : TraceCleanupSolver) :=
  mkSolver (input s) v (traceIdQueue s) (tracesMap s) (pipelineStep s)
    (activeTraceId s) (activeSubSolver s) (solved s).

Definition set_traceIdQueue (v : list string) (s : TraceCleanupSolver) :=
  mkSolver (input s) (outputTraces s) v (tracesMap s) (pipelineStep s)
    (activeTraceId s) (activeSubSolver s) (solved s).

Definition set_tracesMap (v : JsMap.t SolvedTracePath) (s : TraceCleanupSolver) :=
  mkSolver (input s) (outputTraces s) (traceIdQueue s) v (pipelineStep s)
    (activeTraceId s) (activeSubSolver s) (solved s).

Definition set_pipelineStep (v : PipelineStep) (s : TraceCleanupSolver) :=
  mkSolver (input s) (outputTraces s) (traceIdQueue s) (tracesMap s) v
    (activeTraceId s) (activeSubSolver s) (solved s).

Definition set_activeTraceId (v : option string) (s : TraceCleanupSolver) :=
  mkSolver (input s) (outputTraces s) (traceIdQueue s) (tracesMap s)
    (pipelineStep s) v (activeSubSolver s) (solved s).

Definition set_activeSubSolver (v : option UntangleTraceSubsolver)
  (s : TraceCleanupSolver) :=
  mkSolver (input s) (outputTraces s) (traceIdQueue s) (tracesMap s)
    (pipelineStep s) (activeTraceId s) v (solved s).

Definition set_solved (v : bool) (s : TraceCleanupSolver) :=
  mkSolver (input s) (outputTraces s) (traceIdQueue s) (tracesMap s)
    (pipelineStep s) (activeTraceId s) (activeSubSolver s) v.

(** [outputTraces.map((t) => [t.mspPairId, t])] *)
Definition entries (ts : list SolvedTracePath) : list (string * SolvedTracePath) :=
  map (fun t => (mspPairId t, t)) ts.

(** The identifiers of a trace list, in order. *)
Definition ids (ts : list SolvedTracePath) : list string := map mspPairId ts.

(** [constructor(solverInput)] *)
Definition new_TraceCleanupSolver (solverInput : TraceCleanupSolverInput)
  : TraceCleanupSolver :=
  let outputTraces0 := allTraces solverInput in
  {| input := solverInput;
     outputTraces := outputTraces0;
     tracesMap := JsMap.of_entries (entries outputTraces0);
     traceIdQueue := ids (allTraces solverInput);
     pipelineStep := untangling_traces;
     activeTraceId := None;
     activeSubSolver := None;
     solved := false |}.

(** How a call ends: the object after it, whether a [TypeError] left it, and
    what it did. *)
Record StepResult := mkResult {
  next : TraceCleanupSolver;
  threw : bool;
  effects : list Effect
}.

Definition ret (s : TraceCleanupSolver) (es : list Effect) : StepResult :=
  mkResult s false es.

Definition throw (s : TraceCleanupSolver) (es : list Effect) : StepResult :=
  mkResult s true es.

Definition _runUntangleTracesStep (s : TraceCleanupSolver) : StepResult :=
  let sub :=
    new_UntangleTraceSubsolver
      (with_allTraces (JsMap.values (tracesMap s)) (input s)) in
  ret (set_activeSubSolver (Some sub) s) [SubSolverInstantiated].

(** [_processTrace(step)].  [shift()!] and [get(...)!] only silence the type
    checker: a missing trace is [undefined], and reading [.tracePath] of it
    throws. *)
Definition _processTrace (step : PipelineStep) (s : TraceCleanupSolver)
  : StepResult :=
  match traceIdQueue s with
  | [] => throw (set_activeTraceId None s) []
  | targetMspConnectionPairId :: rest =>
      let s1 :=
        set_activeTraceId (Some targetMspConnectionPairId)
          (set_traceIdQueue rest s) in
      let dequeued := TraceDequeued step targetMspConnectionPairId in
      match JsMap.get targetMspConnectionPairId (tracesMap s1) with
      | None => throw s1 [dequeued]
      | Some originalTrace =>
          if is4PointRectangle (tracePath originalTrace) then
            ret s1 [dequeued]
          else
            let allTraces := JsMap.values (tracesMap s1) in
            let updatedTrace :=
              match step with
              | minimizing_turns =>
                  minimizeTurnsWithFilteredLabels (input s1)
                    targetMspConnectionPairId allTraces
              | _ =>
                  balanceZShapes (input s1) targetMspConnectionPairId allTraces
              end in
            let m :=
              JsMap.set targetMspConnectionPairId updatedTrace (tracesMap s1) in
            ret (set_outputTraces (JsMap.values m) (set_tracesMap m s1))
              [dequeued; TransformApplied step targetMspConnectionPairId]
      end
  end.

Definition _runMinimizeTurnsStep (s : TraceCleanupSolver) : StepResult :=
  match traceIdQueue s with
  | [] =>
      ret (set_traceIdQueue (ids (allTraces (input s)))
             (set_pipelineStep balancing_l_shapes s))
        [QueueReseeded]
  | _ :: _ => _processTrace minimizing_turns s
  end.

Definition _runBalanceLShapesStep (s : TraceCleanupSolver) : StepResult :=
  match traceIdQueue s with
  | [] => ret (set_solved true s) [SolvedFlagSet]
  | _ :: _ => _processTrace balancing_l_shapes s
  end.

Definition _step (s : TraceCleanupSolver) : StepResult :=
  match activeSubSolver s with
  | Some sub =>
      let sub' := sub_step sub in
      if sub_solved sub' then
        let output := sub_getOutput sub' in
        ret (set_pipelineStep minimizing_turns
               (set_activeSubSolver None
                  (set_tracesMap (JsMap.of_entries (entries output))
                     (set_outputTraces output s))))
          [SubSolverStep; SubSolverOutputAdopted]
      else if sub_failed sub' then
        ret (set_pipelineStep minimizing_turns (set_activeSubSolver None s))
          [SubSolverStep]
      else
        ret (set_activeSubSolver (Some sub') s) [SubSolverStep]
  | None =>
      match pipelineStep s with
      | untangling_traces => _runUntangleTracesStep s
      | minimizing_turns => _runMinimizeTurnsStep s
      | balancing_l_shapes => _runBalanceLShapesStep s
      end
  end.

(** [getOutput().traces] *)
Definition getOutput (s : TraceCleanupSolver) : list SolvedTracePath :=
  outputTraces s.

(** *** The driver

    [step()] belongs to the base class, which is not part of this file; it
    hands over to [_step], and the calls counted here are calls of [_step].
    [run n s] makes up to [n] of them.  A [TypeError] leaves the loop: the
    exception reaches the caller and no further call is made. *)
Fixpoint run (n : nat) (s : TraceCleanupSolver) : StepResult :=
  match n with
  | O => ret s []
  | S n' =>
      let r := _step s in
      if threw r then r
      else
        let r' := run n' (next r) in
        mkResult (next r') (threw r') (effects r ++ effects r')
  end.

(** *** [visualize()] *)

(** [trace.mspPairId === this.activeTraceId ? "red" : "blue"] *)
Definition stroke_of (active : option string) (trace : SolvedTracePath) : string :=
  match active with
  | Some id => if String.eqb (mspPairId trace) id then "red" else "blue"
  | None => "blue"
  end.

Definition line_of (active : option string) (trace : SolvedTracePath) : Line :=
  mkLine (map (fun p => mkPoint (x p) (y p)) (tracePath trace))
    (stroke_of active trace).

Definition or_empty (A : Type) (layer : option (list A)) : option (list A) :=
  match layer with
  | Some l => Some l
  | None => Some []
  end.

(** [graphics.lines!.push(line)] for every trace, after the missing layers
    were set to the empty array. *)
Definition draw (g : GraphicsObject) (active : option string)
  (ts : list SolvedTracePath) : GraphicsObject :=
  mkGraphics
    (match or_empty (lines g) with
     | Some l => Some (l ++ map (line_of active) ts)
     | None => None
     end)
    (or_empty (points g)) (or_empty (rects g)) (or_empty (circles g))
    (or_empty (texts g)).

(** The key of the first merge loop.  [trace.tracePath[0]] is [undefined]
    for an empty path and reading [.y] of it throws: [None]. *)
Definition firstKey (trace : SolvedTracePath) : option string :=
  match nth_error (tracePath trace) 0 with
  | Some p0 => Some (globalConnNetId trace ++ "-" ++ round100 (y p0))%string
  | None => None
  end.

(** The key of the second merge loop, which also reads
    [trace.tracePath[trace.tracePath.length - 1]]. *)
Definition secondKey (trace : SolvedTracePath) : option string :=
  match nth_error (tracePath trace) 0 with
  | Some p0 =>
      match nth_error (tracePath trace) (List.length (tracePath trace) - 1) with
      | Some pn =>
          let isHorizontal := num_eq (y p0) (y pn) in
          Some (if isHorizontal
                then (globalConnNetId trace ++ "-y" ++ round100 (y p0))%string
                else (globalConnNetId trace ++ "-x" ++ round100 (x p0))%string)
      | None => None
      end
  | None => None
  end.

Definition with_tracePath (p : list Point) (t : SolvedTracePath) : SolvedTracePath :=
  mkTrace (mspPairId t) (globalConnNetId t) p.

(** One merge loop: [for (const trace of traces) { key = ...; if
    (merged.has(key)) existing.tracePath = existing.tracePath.concat(
    trace.tracePath.slice(1)) else merged.set(key, { ...trace }) }].  The
    source writes the loop twice, with [firstKey] and then [secondKey]. *)
Fixpoint mergeLoop (key : SolvedTracePath -> option string)
  (traces : list SolvedTracePath) (merged : JsMap.t SolvedTracePath)
  : option (JsMap.t SolvedTracePath) :=
  match traces with
  | [] => Some merged
  | trace :: rest =>
      match key trace with
      | None => None
      | Some k =>
          if JsMap.has k merged then
            match JsMap.get k merged with
            | Some existing =>
                mergeLoop key rest
                  (JsMap.set k
                     (with_tracePath (tracePath existing ++ tl (tracePath trace))
                        existing)
                     merged)
            | None => None
            end
          else mergeLoop key rest (JsMap.set k trace merged)
      end
  end.

Record VisualizeResult := mkVisualize {
  vis_next : TraceCleanupSolver;
  vis_threw : bool;
  graphics : option GraphicsObject
}.

Definition visualize (s : TraceCleanupSolver) : VisualizeResult :=
  match activeSubSolver s with
  | Some sub => mkVisualize s false (Some (sub_visualize sub))
  | None =>
      let graphics :=
        draw (visualizeInputProblem (inputProblem (input s)))
          (activeTraceId s) (outputTraces s) in
      match mergeLoop firstKey (outputTraces s) JsMap.empty with
      | None => mkVisualize s true None
      | Some mergedTraces =>
          let s1 := set_outputTraces (JsMap.values mergedTraces) s in
          match mergeLoop secondKey (outputTraces s1) JsMap.empty with
          | None => mkVisualize s1 true None
          | Some merged =>
              mkVisualize (set_outputTraces (JsMap.values merged) s1) false
                (Some graphics)
          end
      end
  end.

(** *** Vocabulary of the properties *)

(** The effect that opens a unit of work: the sub-solver's step, taking one
    trace off the queue to process it, or one of the bookkeeping actions
    (instantiating the sub-solver, reseeding the queue, setting the solved
    flag).  Adopting the sub-solver's output is part of handling the step
    that produced it, and the transform is part of processing the trace
    that was dequeued; neither opens a unit of its own. *)
Definition is_unit (e : Effect) : bool :=
  match e with
  | SubSolverStep | TraceDequeued _ _
  | SubSolverInstantiated | QueueReseeded | SolvedFlagSet => true
  | SubSolverOutputAdopted | TransformApplied _ _ => false
  end.

Definition units (es : list Effect) : list Effect := filter is_unit es.

(** The traces a call sequence took off the queue, with the phase. *)
Fixpoint visits (es : list Effect) : list (PipelineStep * string) :=
  match es with
  | [] => []
  | TraceDequeued p id :: es' => (p, id) :: visits es'
  | _ :: es' => visits es'
  end.

(** The identifiers taken off the queue in phase [p], in order. *)
Definition in_phase (p : PipelineStep) (v : PipelineStep * string) : bool :=
  if PipelineStep_eq_dec (fst v) p then true else false.

Definition visited (p : PipelineStep) (es : list Effect) : list string :=
  map snd (filter (in_phase p) (visits es)).

(** Position of a phase in the pipeline. *)
Definition phase_rank (p : PipelineStep) : nat :=
  match p with
  | untangling_traces => 0
  | minimizing_turns => 1
  | balancing_l_shapes => 2
  end.

(** [k] calls of the sub-solver's [step()]. *)
Fixpoint sub_steps (k : nat) (sub : UntangleTraceSubsolver) : UntangleTraceSubsolver :=
  match k with
  | O => sub
  | S k' => sub_steps k' (sub_step sub)
  end.

(** ** Properties of the state machine *)

Unset Implicit Arguments.

Ltac unfold_step :=
  unfold _step, _runUntangleTracesStep, _runMinimizeTurnsStep,
    _runBalanceLShapesStep, _processTrace, ret, throw.

(** Case analysis along the branches of [_step]. *)
Ltac step_cases :=
  unfold_step;
  repeat match goal with
    | |- context [match activeSubSolver ?s with _ => _ end] =>
        destruct (activeSubSolver s) eqn:?
    | |- context [match pipelineStep ?s with _ => _ end] =>
        destruct (pipelineStep s) eqn:?
    | |- context [match traceIdQueue ?s with _ => _ end] =>
        destruct (traceIdQueue s) eqn:?
    | |- context [match JsMap.get ?k ?m with _ => _ end] =>
        destruct (JsMap.get k m) eqn:?
    | |- context [if ?b then _ else _] => destruct b eqn:?
    end;
  simpl in *.

(** The controller never writes its [input]. *)
Lemma step_input (s : TraceCleanupSolver) : input (next (_step s)) = input s.
Proof. step_cases; reflexivity. Qed.

Lemma run_input (n : nat) (s : TraceCleanupSolver) : input (next (run n s)) = input s.
Proof.
  revert s. induction n as [|n IH]; intros s; simpl; auto.
  destruct (threw (_step s)); simpl.
  - apply step_input.
  - now rewrite IH, step_input.
Qed.

(** Calls compose: [a + b] calls are [a] calls and then [b] more, unless
    one of the first [a] threw. *)
Lemma run_add (a b : nat) (s : TraceCleanupSolver) :
  threw (run a s) = false ->
  run (a + b) s =
  mkResult (next (run b (next (run a s)))) (threw (run b (next (run a s))))
    (effects (run a s) ++ effects (run b (next (run a s)))).
Proof.
  revert s. induction a as [|a IH]; intros s; simpl.
  - intros _. now destruct (run b s).
  - destruct (threw (_step s)) eqn:E; simpl.
    + congruence.
    + intros H. rewrite (IH _ H). simpl. now rewrite app_assoc.
Qed.

(** Once a call threw, the run is over. *)
Lemma run_threw (a b : nat) (s : TraceCleanupSolver) :
  threw (run a s) = true -> run (a + b) s = run a s.
Proof.
  revert s. induction a as [|a IH]; intros s; simpl.
  - discriminate.
  - destruct (threw (_step s)) eqn:E; simpl; auto.
    intros H. rewrite (IH _ H). reflexivity.
Qed.

(** The sub-solver slot is only occupied during [untangling_traces]. *)
Definition slot_inv (s : TraceCleanupSolver) : Prop :=
  activeSubSolver s <> None -> pipelineStep s = untangling_traces.

Lemma slot_inv_new (i : TraceCleanupSolverInput) : slot_inv (new_TraceCleanupSolver i).
Proof. intros H. reflexivity. Qed.

Lemma slot_inv_step (s : TraceCleanupSolver) : slot_inv s -> slot_inv (next (_step s)).
Proof.
  unfold slot_inv. step_cases; intros H H'; try congruence; auto.
  all: apply H; congruence.
Qed.

(** States that a sequence of [step()] calls can produce from a freshly
    constructed controller.  Every call counts, also one that threw: a
    caller that catches the error may go on calling. *)
Inductive reachable (i : TraceCleanupSolverInput) : TraceCleanupSolver -> Prop :=
| reach_new : reachable i (new_TraceCleanupSolver i)
| reach_step (s : TraceCleanupSolver) :
    reachable i s -> reachable i (next (_step s)).

Lemma reachable_slot_inv (i : TraceCleanupSolverInput) (s : TraceCleanupSolver) :
  reachable i s -> slot_inv s.
Proof.
  induction 1; [apply slot_inv_new | now apply slot_inv_step].
Qed.

Lemma reachable_run (i : TraceCleanupSolverInput) (n : nat) (s : TraceCleanupSolver) :
  reachable i s -> reachable i (next (run n s)).
Proof.
  revert s. induction n as [|n IH]; intros s H; simpl; auto.
  destruct (threw (_step s)); simpl.
  - now constructor.
  - apply IH. now constructor.
Qed.

(** A call never moves the phase backwards. *)
Lemma step_phase_forward (s : TraceCleanupSolver) :
  slot_inv s ->
  phase_rank (pipelineStep s) <= phase_rank (pipelineStep (next (_step s))).
Proof.
  intros Hinv. unfold slot_inv in Hinv. step_cases.
  all: try (rewrite Hinv by congruence).
  all: repeat match goal with H : pipelineStep _ = _ |- _ => rewrite H end.
  all: simpl; lia.
Qed.

(** A per-trace call only writes the entry of the trace it dequeued. *)
Lemma step_other_entries (s : TraceCleanupSolver) (id : string) :
  activeSubSolver s = None ->
  (forall rest, traceIdQueue s <> id :: rest) ->
  JsMap.get id (tracesMap (next (_step s))) = JsMap.get id (tracesMap s).
Proof.
  intros Hs Hq. step_cases; try congruence; auto.
  all: apply JsMap.get_set_other; intros ->; eapply Hq; reflexivity.
Qed.

Lemma step_rectangle_entry (s : TraceCleanupSolver) (id : string)
  (t : SolvedTracePath) :
  activeSubSolver s = None ->
  JsMap.get id (tracesMap s) = Some t ->
  is4PointRectangle (tracePath t) = true ->
  JsMap.get id (tracesMap (next (_step s))) = Some t.
Proof.
  intros Hs Hg Hr.
  destruct (traceIdQueue s) as [|id' rest] eqn:Hq.
  - rewrite step_other_entries; auto. congruence.
  - destruct (string_dec id' id) as [->|Hne].
    + step_cases; congruence.
    + rewrite step_other_entries; auto. congruence.
Qed.

Lemma step_stays_per_trace (s : TraceCleanupSolver) :
  activeSubSolver s = None -> pipelineStep s <> untangling_traces ->
  activeSubSolver (next (_step s)) = None
  /\ pipelineStep (next (_step s)) <> untangling_traces.
Proof.
  intros Hs Hp. step_cases; split; congruence.
Qed.

(** Outside the adoption of a solved sub-solver's output, no call writes
    the entry of a rectangle. *)
Lemma step_keeps_rectangle (s : TraceCleanupSolver) (id : string)
  (t : SolvedTracePath) :
  (forall sub, activeSubSolver s = Some sub -> sub_solved (sub_step sub) = false) ->
  JsMap.get id (tracesMap s) = Some t ->
  is4PointRectangle (tracePath t) = true ->
  JsMap.get id (tracesMap (next (_step s))) = Some t.
Proof.
  intros Hsub Hg Hr. destruct (activeSubSolver s) as [sub|] eqn:Hs.
  - unfold _step. rewrite Hs, (Hsub sub eq_refl).
    destruct (sub_failed (sub_step sub)); exact Hg.
  - now apply step_rectangle_entry.
Qed.

(** C7 (rectangle invariance), as the code has it.  A trace whose polyline
    is a 4-point rectangle keeps its entry in the trace map through every
    call except the one that adopts a solved sub-solver's output.  So
    through any number of calls in the [minimizing_turns] and
    [balancing_l_shapes] phases its geometry is what it was, and the call
    that dequeues it returns without applying a transform, changing nothing
    but the queue and the active identifier. *)
Theorem rectangle_invariance (s : TraceCleanupSolver) (id : string)
  (t : SolvedTracePath) (n : nat) :
  JsMap.get id (tracesMap s) = Some t ->
  is4PointRectangle (tracePath t) = true ->
  ((forall sub, activeSubSolver s = Some sub ->
                sub_solved (sub_step sub) = false) ->
   JsMap.get id (tracesMap (next (_step s))) = Some t)
  /\ (activeSubSolver s = None ->
      pipelineStep s <> untangling_traces ->
      JsMap.get id (tracesMap (next (run n s))) = Some t
      /\ (forall rest, traceIdQueue s = id :: rest ->
          _step s =
          ret (set_activeTraceId (Some id) (set_traceIdQueue rest s))
            [TraceDequeued (pipelineStep s) id])).
Proof.
  intros Hg Hr. split.
  { intros Hsub. now apply step_keeps_rectangle. }
  intros Hs Hp. split.
  - revert s Hs Hp Hg. induction n as [|n IH]; intros s Hs Hp Hg; simpl; auto.
    destruct (step_stays_per_trace s Hs Hp) as [Hs' Hp'].
    pose proof (step_rectangle_entry s id t Hs Hg Hr) as Hg'.
    destruct (threw (_step s)); simpl; auto.
  - intros rest Hq. unfold_step. rewrite Hs, Hq.
    destruct (pipelineStep s); try congruence; simpl; rewrite Hg, Hr; reflexivity.
Qed.

(** *** Visiting order *)

(** The visits still to come: what is left of the queue in this phase and,
    before [balancing_l_shapes], the whole original roster once more. *)
Definition future_visits (s : TraceCleanupSolver) : list (PipelineStep * string) :=
  match pipelineStep s with
  | balancing_l_shapes => map (pair balancing_l_shapes) (traceIdQueue s)
  | _ =>
      map (pair minimizing_turns) (traceIdQueue s)
      ++ map (pair balancing_l_shapes) (ids (allTraces (input s)))
  end.

(** When the solved flag is up, nothing is left to do. *)
Definition solved_inv (s : TraceCleanupSolver) : Prop :=
  solved s = true ->
  pipelineStep s = balancing_l_shapes /\ traceIdQueue s = []
  /\ activeSubSolver s = None.

Lemma visits_app (a b : list Effect) : visits (a ++ b) = visits a ++ visits b.
Proof.
  induction a as [|e a IH]; simpl; auto. destruct e; simpl; now rewrite ?IH.
Qed.

Lemma step_visits (s : TraceCleanupSolver) :
  slot_inv s ->
  visits (effects (_step s)) ++ future_visits (next (_step s)) = future_visits s.
Proof.
  unfold slot_inv. intros Hinv.
  destruct (activeSubSolver s) as [sub|] eqn:E.
  - assert (Hp : pipelineStep s = untangling_traces) by (apply Hinv; congruence).
    unfold future_visits, _step. rewrite E.
    destruct (sub_solved (sub_step sub)), (sub_failed (sub_step sub)); simpl;
      rewrite ?Hp; reflexivity.
  - unfold future_visits, _step. rewrite E. clear Hinv E. step_cases.
    all: try congruence.
    all: repeat match goal with
           | H : pipelineStep _ = _ |- _ => rewrite H
           | H : traceIdQueue _ = _ |- _ => rewrite H
           end.
    all: reflexivity.
Qed.

Lemma solved_inv_step (s : TraceCleanupSolver) :
  solved_inv s -> solved_inv (next (_step s)).
Proof.
  unfold solved_inv. step_cases; intros H H'; auto.
  all: try (destruct (H H') as (? & ? & ?); congruence).
Qed.

Lemma solved_inv_new (i : TraceCleanupSolverInput) : solved_inv (new_TraceCleanupSolver i).
Proof. intros H. discriminate. Qed.

(** The two passes over the original roster. *)
Definition roster_visits (i : TraceCleanupSolverInput) : list (PipelineStep * string) :=
  map (pair minimizing_turns) (ids (allTraces i))
  ++ map (pair balancing_l_shapes) (ids (allTraces i)).

(** What a sequence of [step()] calls on a fresh controller has done so
    far, and the state it has reached.  As in [reachable], the sequence may
    go on after a call that threw. *)
Inductive history (i : TraceCleanupSolverInput)
  : list Effect -> TraceCleanupSolver -> Prop :=
| hist_new : history i [] (new_TraceCleanupSolver i)
| hist_step (es : list Effect) (s : TraceCleanupSolver) :
    history i es s -> history i (es ++ effects (_step s)) (next (_step s)).

Lemma history_reachable (i : TraceCleanupSolverInput) (es : list Effect)
  (s : TraceCleanupSolver) :
  history i es s -> reachable i s.
Proof. induction 1; now constructor. Qed.

Lemma history_run_from (i : TraceCleanupSolverInput) (n : nat) :
  forall es s, history i es s ->
               history i (es ++ effects (run n s)) (next (run n s)).
Proof.
  induction n as [|n IH]; intros es s H; simpl.
  - now rewrite app_nil_r.
  - destruct (threw (_step s)); simpl.
    + now constructor.
    + rewrite app_assoc. apply IH. now constructor.
Qed.

(** A run by the driver is such a sequence. *)
Lemma history_run (i : TraceCleanupSolverInput) (n : nat) :
  history i (effects (run n (new_TraceCleanupSolver i)))
    (next (run n (new_TraceCleanupSolver i))).
Proof. apply (history_run_from i n [] _ (hist_new i)). Qed.

Lemma history_invariants (i : TraceCleanupSolverInput) (es : list Effect)
  (s : TraceCleanupSolver) :
  history i es s ->
  input s = i /\ slot_inv s /\ solved_inv s
  /\ visits es ++ future_visits s = roster_visits i.
Proof.
  induction 1 as [|es s H (Hin & Hslot & Hsol & Hv)].
  - split; [|split; [|split]]; auto using slot_inv_new, solved_inv_new.
  - split; [|split; [|split]]; auto using slot_inv_step, solved_inv_step.
    + now rewrite step_input.
    + rewrite visits_app, <- app_assoc, step_visits; assumption.
Qed.

(** C8 (original-roster reseed).  After any sequence of calls on a fresh
    controller, a call that finds the [minimizing_turns] queue empty moves
    to [balancing_l_shapes] and sets the queue to the identifiers of the
    [allTraces] given to the constructor, in input order, whatever the
    trace map holds by then.  So the visits made so far are an initial part
    of the original roster taken twice, first for minimizing and then for
    balancing, and the whole of it once the solved flag is set. *)
Theorem original_roster_reseed (i : TraceCleanupSolverInput)
  (es : list Effect) (s : TraceCleanupSolver) :
  history i es s ->
  (pipelineStep s = minimizing_turns -> traceIdQueue s = [] ->
   _step s =
   ret (set_traceIdQueue (ids (allTraces i))
          (set_pipelineStep balancing_l_shapes s))
     [QueueReseeded])
  /\ exists rest,
       visits es ++ rest = roster_visits i
       /\ (solved s = true -> rest = []).
Proof.
  intros H. destruct (history_invariants i es s H) as (Hin & Hslot & Hsolved & Hv).
  split.
  - intros Hp Hq. unfold slot_inv in Hslot.
    unfold_step. rewrite Hq.
    destruct (activeSubSolver s) eqn:E.
    + assert (Hc : pipelineStep s = untangling_traces)
        by (apply Hslot; congruence).
      congruence.
    + rewrite Hp, Hin. reflexivity.
  - exists (future_visits s). split; [exact Hv|].
    intros Hs. destruct (Hsolved Hs) as (Hp & Hq & _).
    unfold future_visits. now rewrite Hp, Hq.
Qed.

Lemma visited_roster_same (p : PipelineStep) (l : list string) :
  map snd (filter (in_phase p) (map (pair p) l)) = l.
Proof.
  induction l as [|a l IH]; simpl; auto.
  unfold in_phase at 1. simpl.
  destruct (PipelineStep_eq_dec p p); [|congruence]. simpl. now rewrite IH.
Qed.

Lemma visited_roster_other (p q : PipelineStep) (l : list string) :
  p <> q -> map snd (filter (in_phase p) (map (pair q) l)) = [].
Proof.
  intros Hne. induction l as [|a l IH]; simpl; auto.
  unfold in_phase at 1. simpl.
  destruct (PipelineStep_eq_dec q p); [congruence | exact IH].
Qed.

(** Whenever the controller is in [balancing_l_shapes], the minimizing
    phase has taken the whole roster off its queue. *)
Lemma balancing_after_minimizing (i : TraceCleanupSolverInput)
  (es : list Effect) (s : TraceCleanupSolver) :
  history i es s ->
  pipelineStep s = balancing_l_shapes ->
  visited minimizing_turns es = ids (allTraces i).
Proof.
  intros H Hp. destruct (history_invariants i es s H) as (_ & _ & _ & Hv).
  apply (f_equal (fun l => map snd (filter (in_phase minimizing_turns) l))) in Hv.
  unfold future_visits, roster_visits in Hv. rewrite Hp in Hv.
  rewrite !filter_app, !map_app in Hv.
  rewrite visited_roster_same in Hv.
  rewrite !visited_roster_other in Hv by discriminate.
  rewrite !app_nil_r in Hv. exact Hv.
Qed.

(** C4 (phase ordering).  Along every sequence of [step()] calls from the
    initial state: the phase never moves backwards; a call enters
    [balancing_l_shapes] only from [minimizing_turns] with an empty queue,
    and whenever the controller is in [balancing_l_shapes] the minimizing
    phase has dequeued the whole roster; a call enters [minimizing_turns]
    only by emptying the sub-solver slot, after the sub-solver it held
    reported solved or failed on that call's step; and outside
    [untangling_traces] the slot is empty. *)
Theorem phase_ordering (i : TraceCleanupSolverInput) (es : list Effect)
  (s : TraceCleanupSolver) :
  history i es s ->
  let s' := next (_step s) in
  phase_rank (pipelineStep s) <= phase_rank (pipelineStep s')
  /\ (pipelineStep s' = balancing_l_shapes ->
      pipelineStep s <> balancing_l_shapes ->
      pipelineStep s = minimizing_turns /\ traceIdQueue s = []
      /\ activeSubSolver s = None)
  /\ (pipelineStep s = balancing_l_shapes ->
      visited minimizing_turns es = ids (allTraces i))
  /\ (pipelineStep s' = minimizing_turns ->
      pipelineStep s <> minimizing_turns ->
      activeSubSolver s' = None
      /\ exists sub, activeSubSolver s = Some sub
           /\ (sub_solved (sub_step sub) = true
               \/ sub_failed (sub_step sub) = true))
  /\ (pipelineStep s <> untangling_traces -> activeSubSolver s = None).
Proof.
  intros H.
  pose proof (balancing_after_minimizing i es s H) as Hbal.
  destruct (history_invariants i es s H) as (_ & Hr & _ & _).
  intros s'. subst s'.
  split; [now apply step_phase_forward|].
  unfold slot_inv in Hr.
  split; [|split; [exact Hbal|split]].
  - step_cases; intros; try congruence; auto.
  - step_cases; intros; try congruence; split; auto; eexists; split;
      try reflexivity; auto.
  - intros Hp. destruct (activeSubSolver s) eqn:E; auto.
    exfalso. apply Hp, Hr. congruence.
Qed.

(** *** At most one visit per trace and phase *)

Lemma count_dequeued (es : list Effect) (p : PipelineStep) (id : string) :
  count_occ Effect_eq_dec es (TraceDequeued p id)
  = count_occ visit_eq_dec (visits es) (p, id).
Proof.
  induction es as [|e es IH]; cbn [visits count_occ]; auto.
  destruct e; cbn [visits count_occ];
    try (destruct (Effect_eq_dec _ _) as [E|E]; [discriminate E | exact IH]).
  destruct (Effect_eq_dec _ _) as [E|E], (visit_eq_dec _ _) as [E'|E'];
    congruence.
Qed.

(** What a single call can do. *)
Inductive step_shape : list Effect -> Prop :=
| shape_adopt : step_shape [SubSolverStep; SubSolverOutputAdopted]
| shape_sub : step_shape [SubSolverStep]
| shape_new : step_shape [SubSolverInstantiated]
| shape_reseed : step_shape [QueueReseeded]
| shape_solved : step_shape [SolvedFlagSet]
| shape_skip p id : step_shape [TraceDequeued p id]
| shape_transform p id :
    step_shape [TraceDequeued p id; TransformApplied p id].

Lemma step_effects_shape (s : TraceCleanupSolver) : step_shape (effects (_step s)).
Proof. step_cases; constructor. Qed.


Lemma step_transform_le (s : TraceCleanupSolver) (p : PipelineStep) (id : string) :
  count_occ Effect_eq_dec (effects (_step s)) (TransformApplied p id)
  <= count_occ Effect_eq_dec (effects (_step s)) (TraceDequeued p id).
Proof.
  destruct (step_effects_shape s); cbn [count_occ];
    repeat (destruct (Effect_eq_dec _ _)); try lia; congruence.
Qed.

Lemma history_transform_le (i : TraceCleanupSolverInput) (es : list Effect)
  (s : TraceCleanupSolver) (p : PipelineStep) (id : string) :
  history i es s ->
  count_occ Effect_eq_dec es (TransformApplied p id)
  <= count_occ Effect_eq_dec es (TraceDequeued p id).
Proof.
  induction 1 as [|es s H IH]; [reflexivity|].
  rewrite !count_occ_app. pose proof (step_transform_le s p id). lia.
Qed.

Lemma NoDup_map_pair (p : PipelineStep) (l : list string) :
  NoDup l -> NoDup (map (pair p) l).
Proof.
  induction 1 as [|a l Ha Hl IH]; simpl; constructor; auto.
  rewrite in_map_iff. intros (b & E & Hb). congruence.
Qed.

Lemma NoDup_roster_visits (i : TraceCleanupSolverInput) :
  NoDup (ids (allTraces i)) -> NoDup (roster_visits i).
Proof.
  intros H. unfold roster_visits.
  apply NoDup_app; auto using NoDup_map_pair.
  intros [p id]. rewrite !in_map_iff.
  intros (a & Ea & _) (b & Eb & _). congruence.
Qed.

(** C9 (exactly-once visitation).  With unique identifiers in the input,
    in any sequence of calls on a fresh controller every identifier is
    taken off the queue at most once in each phase, and a transform is
    applied to it at most as often as it is dequeued (a rectangle is
    dequeued and left alone). *)
Theorem at_most_one_visit (i : TraceCleanupSolverInput) (es : list Effect)
  (s : TraceCleanupSolver) (p : PipelineStep) (id : string) :
  NoDup (ids (allTraces i)) ->
  history i es s ->
  count_occ Effect_eq_dec es (TraceDequeued p id) <= 1
  /\ count_occ Effect_eq_dec es (TransformApplied p id)
     <= count_occ Effect_eq_dec es (TraceDequeued p id).
Proof.
  intros Hnd H. split; [|now apply (history_transform_le i es s)].
  rewrite count_dequeued.
  destruct (history_invariants i es s H) as (_ & _ & _ & Hv).
  apply NoDup_roster_visits in Hnd. rewrite <- Hv in Hnd.
  rewrite (NoDup_count_occ visit_eq_dec) in Hnd.
  specialize (Hnd (p, id)). rewrite count_occ_app in Hnd. lia.
Qed.

(** *** Termination *)

Lemma fst_entries (ts : list SolvedTracePath) : map fst (entries ts) = ids ts.
Proof. unfold entries, ids. rewrite map_map. reflexivity. Qed.

(** Processing a trace that the map holds cannot fail, and keeps the keys. *)
Lemma step_process_present (s : TraceCleanupSolver) (id : string)
  (rest : list string) :
  activeSubSolver s = None ->
  pipelineStep s <> untangling_traces ->
  traceIdQueue s = id :: rest ->
  In id (JsMap.keys (tracesMap s)) ->
  threw (_step s) = false
  /\ traceIdQueue (next (_step s)) = rest
  /\ pipelineStep (next (_step s)) = pipelineStep s
  /\ activeSubSolver (next (_step s)) = None
  /\ JsMap.keys (tracesMap (next (_step s))) = JsMap.keys (tracesMap s)
  /\ solved (next (_step s)) = solved s.
Proof.
  intros Hs Hp Hq Hin.
  destruct (JsMap.keys_get _ _ Hin) as [t Ht].
  unfold_step. rewrite Hs, Hq.
  destruct (pipelineStep s) eqn:Ep; try congruence; simpl; rewrite Ht;
    destruct (is4PointRectangle (tracePath t)); simpl;
    rewrite ?JsMap.keys_set_present by assumption; auto 10.
Qed.

(** A per-trace phase empties its queue in as many calls as the queue is
    long. *)
Lemma drain (q : list string) (s : TraceCleanupSolver) :
  traceIdQueue s = q ->
  activeSubSolver s = None ->
  pipelineStep s <> untangling_traces ->
  incl q (JsMap.keys (tracesMap s)) ->
  let r := run (List.length q) s in
  threw r = false
  /\ traceIdQueue (next r) = []
  /\ pipelineStep (next r) = pipelineStep s
  /\ activeSubSolver (next r) = None
  /\ JsMap.keys (tracesMap (next r)) = JsMap.keys (tracesMap s)
  /\ solved (next r) = solved s.
Proof.
  revert s. induction q as [|id q IH]; intros s Hq Hs Hp Hin; simpl.
  - auto 10.
  - destruct (step_process_present s id q Hs Hp Hq (Hin id (or_introl eq_refl)))
      as (Ht & Hq' & Hp' & Hs' & Hk' & Hv').
    rewrite Ht. simpl.
    destruct (IH (next (_step s))) as (A & B & C & D & E & F); auto.
    + congruence.
    + rewrite Hk'. intros a Ha. apply Hin. now right.
    + repeat split; congruence.
Qed.

(** From the start of [minimizing_turns], with every queued and every
    original identifier in the map, the two per-trace phases run to the
    solved flag. *)
Lemma per_trace_phases_finish (s : TraceCleanupSolver) :
  activeSubSolver s = None ->
  pipelineStep s = minimizing_turns ->
  incl (traceIdQueue s) (JsMap.keys (tracesMap s)) ->
  incl (ids (allTraces (input s))) (JsMap.keys (tracesMap s)) ->
  let n :=
    List.length (traceIdQueue s)
    + (1 + (List.length (ids (allTraces (input s))) + 1)) in
  threw (run n s) = false /\ solved (next (run n s)) = true.
Proof.
  intros Hs Hp Hq Hi n. subst n.
  destruct (drain (traceIdQueue s) s eq_refl Hs ltac:(congruence) Hq)
    as (A & B & C & D & E & _).
  rewrite run_add by exact A. simpl threw. simpl next.
  set (s1 := next (run (List.length (traceIdQueue s)) s)) in *.
  assert (Hin1 : input s1 = input s) by apply run_input.
  (* the reseed *)
  assert (R : _step s1 =
              ret (set_traceIdQueue (ids (allTraces (input s)))
                     (set_pipelineStep balancing_l_shapes s1)) [QueueReseeded]).
  { unfold_step. rewrite D, C, Hp, B, Hin1. reflexivity. }
  change (run (1 + (List.length (ids (allTraces (input s))) + 1)) s1)
    with (run (S (List.length (ids (allTraces (input s))) + 1)) s1).
  cbn [run]. rewrite R. cbn [ret threw next effects].
  set (s2 := set_traceIdQueue (ids (allTraces (input s)))
               (set_pipelineStep balancing_l_shapes s1)).
  destruct (drain (ids (allTraces (input s))) s2 eq_refl D
              ltac:(simpl; congruence))
    as (A2 & B2 & C2 & D2 & _ & _).
  { simpl. rewrite E. exact Hi. }
  rewrite run_add by exact A2. simpl threw. simpl next.
  set (s3 := next (run (List.length (ids (allTraces (input s)))) s2)) in *.
  assert (R3 : _step s3 = ret (set_solved true s3) [SolvedFlagSet]).
  { unfold_step. rewrite D2, C2, B2. reflexivity. }
  cbn [run]. rewrite R3. simpl. auto.
Qed.

(** The sub-solver the controller instantiates on its first call. *)
Definition untangler (i : TraceCleanupSolverInput) : UntangleTraceSubsolver :=
  new_UntangleTraceSubsolver
    (with_allTraces (JsMap.values (tracesMap (new_TraceCleanupSolver i))) i).

Lemma new_keys (i : TraceCleanupSolverInput) :
  incl (ids (allTraces i)) (JsMap.keys (tracesMap (new_TraceCleanupSolver i))).
Proof.
  intros id H. simpl. apply JsMap.in_keys_of_entries. now rewrite fst_entries.
Qed.

(** While the slot is occupied the controller steps the sub-solver until it
    reports an outcome, then leaves for [minimizing_turns]; the map is the
    old one, or the one built from the output of a solved sub-solver. *)
Lemma untangle_finishes (k : nat) :
  forall (sub : UntangleTraceSubsolver) (s : TraceCleanupSolver),
  activeSubSolver s = Some sub ->
  0 < k ->
  sub_solved (sub_steps k sub) = true \/ sub_failed (sub_steps k sub) = true ->
  exists j, 1 <= j <= k
    /\ threw (run j s) = false
    /\ activeSubSolver (next (run j s)) = None
    /\ pipelineStep (next (run j s)) = minimizing_turns
    /\ traceIdQueue (next (run j s)) = traceIdQueue s
    /\ (tracesMap (next (run j s)) = tracesMap s
        \/ exists j', sub_solved (sub_steps j' sub) = true
             /\ tracesMap (next (run j s))
                = JsMap.of_entries (entries (sub_getOutput (sub_steps j' sub)))).
Proof.
  induction k as [|k IH]; intros sub s Hs Hk Hout; [lia|].
  destruct (sub_solved (sub_step sub)) eqn:Esol.
  - exists 1. cbn [run]. unfold _step. rewrite Hs, Esol. simpl.
    repeat split; auto; try lia.
    right. exists 1. simpl. auto.
  - destruct (sub_failed (sub_step sub)) eqn:Efail.
    + exists 1. cbn [run]. unfold _step. rewrite Hs, Esol, Efail. simpl.
      repeat split; auto; lia.
    + destruct k as [|k'].
      { simpl in Hout. destruct Hout; congruence. }
      destruct (IH (sub_step sub) (set_activeSubSolver (Some (sub_step sub)) s))
        as (j & Hj & A & B & C & D & E); auto; try lia.
      assert (R : _step s =
                  ret (set_activeSubSolver (Some (sub_step sub)) s) [SubSolverStep])
        by (unfold _step; now rewrite Hs, Esol, Efail).
      exists (S j). cbn [run]. rewrite R. cbn [ret threw next effects app].
      repeat split; auto; try lia.
      destruct E as [E|(j' & E1 & E2)]; [left; exact E|].
      right. exists (S j'). auto.
Qed.

(** C3 (sub-solver failure resilience).  With a sub-solver that always
    reports failed and never solved, the second call of a fresh controller
    leaves it exactly as constructed except for the phase, which is
    [minimizing_turns]: output, map and queue are the ones held before the
    sub-solver ran, and nothing was thrown.  The run then reaches the
    solved flag, again without an error, after two passes over the
    roster. *)
Theorem failure_resilience (i : TraceCleanupSolverInput) :
  (forall sub, sub_solved sub = false) ->
  (forall sub, sub_failed sub = true) ->
  let s0 := new_TraceCleanupSolver i in
  let n := 2 + (List.length (allTraces i) + (1 + (List.length (allTraces i) + 1))) in
  run 2 s0 =
  ret (set_pipelineStep minimizing_turns s0) [SubSolverInstantiated; SubSolverStep]
  /\ threw (run n s0) = false
  /\ solved (next (run n s0)) = true.
Proof.
  intros Hsol Hfail s0 n. subst n.
  assert (R : run 2 s0 =
              ret (set_pipelineStep minimizing_turns s0)
                [SubSolverInstantiated; SubSolverStep]).
  { cbn [run]. unfold _step at 1 2. simpl. unfold _step. simpl.
    rewrite Hsol, Hfail. reflexivity. }
  split; [exact R|].
  rewrite run_add by (rewrite R; reflexivity). rewrite R.
  cbn [ret threw next effects].
  pose proof (per_trace_phases_finish (set_pipelineStep minimizing_turns s0)
                eq_refl eq_refl (new_keys i) (new_keys i)) as H.
  simpl in H. unfold ids in H. rewrite !length_map in H. exact H.
Qed.

(** C5 (forward progress), as the code has it.  If the sub-solver reports
    solved or failed after some [k >= 1] of its steps, and a solved
    sub-solver's output still holds every identifier of the input, then a
    fresh controller reaches the solved flag, without an error, within
    [1 + k + 2 * (number of traces + 1)] calls. *)
Theorem forward_progress (i : TraceCleanupSolverInput) (k : nat) :
  0 < k ->
  sub_solved (sub_steps k (untangler i)) = true
  \/ sub_failed (sub_steps k (untangler i)) = true ->
  (forall j, sub_solved (sub_steps j (untangler i)) = true ->
             incl (ids (allTraces i))
               (ids (sub_getOutput (sub_steps j (untangler i))))) ->
  exists n, n <= 1 + k + 2 * (List.length (allTraces i) + 1)
    /\ threw (run n (new_TraceCleanupSolver i)) = false
    /\ solved (next (run n (new_TraceCleanupSolver i))) = true.
Proof.
  intros Hk Hout Hids.
  set (s0 := new_TraceCleanupSolver i).
  set (s1 := set_activeSubSolver (Some (untangler i)) s0).
  assert (R1 : run 1 s0 = ret s1 [SubSolverInstantiated]) by reflexivity.
  destruct (untangle_finishes k (untangler i) s1 eq_refl Hk Hout)
    as (j & Hj & A & B & C & D & E).
  set (s2 := next (run j s1)) in *.
  assert (Hin2 : input s2 = i) by (unfold s2; now rewrite run_input).
  assert (Hkeys : incl (ids (allTraces i)) (JsMap.keys (tracesMap s2))).
  { destruct E as [E|(j' & E1 & E2)]; rewrite ?E, ?E2.
    - apply new_keys.
    - intros id Hid. apply JsMap.in_keys_of_entries. rewrite fst_entries.
      now apply (Hids j'). }
  assert (Hq2 : traceIdQueue s2 = ids (allTraces i)) by (rewrite D; reflexivity).
  destruct (per_trace_phases_finish s2 B C) as [F G].
  { now rewrite Hq2. }
  { now rewrite Hin2. }
  rewrite Hq2, Hin2 in F, G.
  exists (1 + (j + (List.length (ids (allTraces i))
                    + (1 + (List.length (ids (allTraces i)) + 1))))).
  split.
  - unfold ids. rewrite !length_map. lia.
  - rewrite run_add by (rewrite R1; reflexivity). rewrite R1.
    cbn [ret threw next effects].
    rewrite run_add by exact A. cbn [threw next]. auto.
Qed.

(** ** Properties of [visualize()] *)

(** The first point is read at index 0: out of bounds exactly for the empty
    polyline. *)
Lemma firstKey_None (t : SolvedTracePath) : firstKey t = None <-> tracePath t = [].
Proof.
  unfold firstKey. destruct (tracePath t); simpl; split; congruence.
Qed.

(** The last point is read at index [length - 1], which is inside every
    non-empty polyline. *)
Lemma last_index_in_bounds (path : list Point) :
  path <> [] -> nth_error path (List.length path - 1) <> None.
Proof.
  intros H. rewrite nth_error_None.
  destruct path; [congruence | simpl; lia].
Qed.

Lemma secondKey_None (t : SolvedTracePath) : secondKey t = None <-> tracePath t = [].
Proof.
  unfold secondKey. destruct (tracePath t) as [|p0 rest] eqn:E.
  - simpl. split; reflexivity.
  - assert (H : nth_error (p0 :: rest) (List.length (p0 :: rest) - 1) <> None)
      by (apply last_index_in_bounds; congruence).
    cbn [nth_error] in *.
    destruct (nth_error (p0 :: rest) (List.length (p0 :: rest) - 1));
      split; congruence.
Qed.

(** A merge loop over non-empty polylines finishes, and what it leaves in
    the map has non-empty polylines again. *)
Lemma mergeLoop_total (key : SolvedTracePath -> option string) :
  (forall t, tracePath t <> [] -> key t <> None) ->
  forall traces merged,
  Forall (fun t => tracePath t <> []) traces ->
  Forall (fun t => tracePath t <> []) (JsMap.values merged) ->
  exists m, mergeLoop key traces merged = Some m
            /\ Forall (fun t => tracePath t <> []) (JsMap.values m).
Proof.
  intros Hkey traces.
  induction traces as [|trace rest IH]; intros merged Hts Hm; simpl.
  - eauto.
  - inversion Hts as [|? ? Ht Hrest]; subst.
    destruct (key trace) as [k|] eqn:Ek; [|now apply Hkey in Ek].
    unfold JsMap.has.
    destruct (JsMap.get k merged) as [existing|] eqn:Eg; apply IH; auto.
    + apply JsMap.Forall_values_set; auto. simpl.
      pose proof (@JsMap.Forall_values_get _ _ _ _ _ Hm Eg) as He. simpl in He.
      destruct (tracePath existing); [congruence | discriminate].
    + apply JsMap.Forall_values_set; auto.
Qed.

(** A merge loop that meets a trace without a key throws. *)
Lemma mergeLoop_throws (key : SolvedTracePath -> option string) :
  forall traces merged,
  Exists (fun t => key t = None) traces -> mergeLoop key traces merged = None.
Proof.
  induction traces as [|trace rest IH]; intros merged H; simpl.
  - inversion H.
  - destruct (key trace) as [k|] eqn:Ek; auto.
    inversion H as [? ? H0|? ? H0]; subst; [congruence|].
    unfold JsMap.has. destruct (JsMap.get k merged); apply IH; assumption.
Qed.

(** C10 (visualize indexing safety).  With no sub-solver active,
    [visualize()] reads [tracePath[0]] and [tracePath[length - 1]] of the
    traces it merges.  If every trace of the current output has a non-empty
    polyline, both reads are in bounds for each of them and the call
    returns; if some trace has an empty polyline, the read at index 0 finds
    nothing and the call throws. *)
Theorem visualize_indexing (s : TraceCleanupSolver) :
  activeSubSolver s = None ->
  (Forall (fun t => tracePath t <> []) (outputTraces s) ->
   Forall (fun t => nth_error (tracePath t) 0 <> None
                    /\ nth_error (tracePath t) (List.length (tracePath t) - 1)
                       <> None) (outputTraces s)
   /\ vis_threw (visualize s) = false)
  /\ (Exists (fun t => tracePath t = []) (outputTraces s) ->
      Exists (fun t => nth_error (tracePath t) 0 = None) (outputTraces s)
      /\ vis_threw (visualize s) = true).
Proof.
  intros Hs. unfold visualize. rewrite Hs. split.
  - intros Hne. split.
    + eapply Forall_impl; [|exact Hne]. intros t Ht. simpl in Ht. split.
      * destruct (tracePath t); [congruence | discriminate].
      * now apply last_index_in_bounds.
    + assert (K1 : forall t, tracePath t <> [] -> firstKey t <> None)
        by (intros t Ht Hk; now apply firstKey_None in Hk).
      assert (K2 : forall t, tracePath t <> [] -> secondKey t <> None)
        by (intros t Ht Hk; now apply secondKey_None in Hk).
      destruct (mergeLoop_total firstKey K1 (outputTraces s) JsMap.empty Hne
                  (Forall_nil _)) as (m1 & E1 & H1).
      rewrite E1. simpl outputTraces.
      destruct (mergeLoop_total secondKey K2 (JsMap.values m1) JsMap.empty H1
                  (Forall_nil _)) as (m2 & E2 & H2).
      rewrite E2. reflexivity.
  - intros Hex. split.
    + eapply Exists_impl; [|exact Hex]. intros t Ht. simpl in Ht.
      now rewrite Ht.
    + rewrite mergeLoop_throws; [reflexivity|].
      eapply Exists_impl; [|exact Hex]. intros t Ht. now apply firstKey_None.
Qed.

(** [visualize()] writes no field but [outputTraces]. *)
Lemma visualize_frame (s : TraceCleanupSolver) :
  vis_next (visualize s)
  = set_outputTraces (outputTraces (vis_next (visualize s))) s.
Proof.
  unfold visualize.
  destruct (activeSubSolver s) eqn:Hs.
  - destruct s; reflexivity.
  - destruct (mergeLoop firstKey (outputTraces s) JsMap.empty) as [m1|];
      [|destruct s; reflexivity].
    simpl outputTraces.
    destruct (mergeLoop secondKey (JsMap.values m1) JsMap.empty) as [m2|];
      destruct s; reflexivity.
Qed.

(** While a sub-solver is active, [visualize()] hands over to it and the
    controller is left as it was. *)
Lemma visualize_delegates (s : TraceCleanupSolver) (sub : UntangleTraceSubsolver) :
  activeSubSolver s = Some sub ->
  visualize s = mkVisualize s false (Some (sub_visualize sub)).
Proof. intros Hs. unfold visualize. now rewrite Hs. Qed.

(** ** Further properties of the controller *)

(** X1 (visualize frame).  [visualize()] writes no field of the controller
    but [outputTraces], whether it returns or throws; and while a
    sub-solver is active it writes nothing at all and returns the
    sub-solver's picture. *)
Theorem visualize_writes_only_output (s : TraceCleanupSolver) :
  vis_next (visualize s)
  = set_outputTraces (getOutput (vis_next (visualize s))) s
  /\ (forall sub, activeSubSolver s = Some sub ->
      visualize s = mkVisualize s false (Some (sub_visualize sub))).
Proof.
  split; [apply visualize_frame | apply visualize_delegates].
Qed.

(** One trace continues another: same identifier, same net, and the
    polyline of the first followed by more points. *)
Definition extends (t t' : SolvedTracePath) : Prop :=
  mspPairId t' = mspPairId t
  /\ globalConnNetId t' = globalConnNetId t
  /\ exists more, tracePath t' = tracePath t ++ more.

Lemma extends_refl (t : SolvedTracePath) : extends t t.
Proof. repeat split. exists []. now rewrite app_nil_r. Qed.

Lemma extends_trans (a b c : SolvedTracePath) :
  extends a b -> extends b c -> extends a c.
Proof.
  intros (I1 & N1 & m1 & P1) (I2 & N2 & m2 & P2).
  repeat split; try congruence.
  exists (m1 ++ m2). now rewrite P2, P1, app_assoc.
Qed.

(** A merge loop adds no entry beyond one per trace it reads, and every
    entry it leaves continues a trace it started from. *)
Lemma mergeLoop_extends (key : SolvedTracePath -> option string) :
  forall traces merged m,
  mergeLoop key traces merged = Some m ->
  List.length m <= List.length merged + List.length traces
  /\ Forall (fun t' => exists t, In t (JsMap.values merged ++ traces)
                                 /\ extends t t') (JsMap.values m).
Proof.
  induction traces as [|trace rest IH]; intros merged m; simpl.
  - intros E. injection E as <-. split; [lia|].
    rewrite app_nil_r. apply Forall_forall. intros t Ht.
    exists t. split; [assumption | apply extends_refl].
  - destruct (key trace) as [k|]; [|discriminate].
    destruct (JsMap.has k merged) eqn:Eh.
    + destruct (JsMap.get k merged) as [existing|] eqn:Eg; [|discriminate].
      intros E. destruct (IH _ _ E) as [Hlen Hall].
      rewrite JsMap.length_set, Eh in Hlen. split; [lia|].
      eapply Forall_impl; [|exact Hall]. intros t' (t & Hin & Hext).
      apply in_app_or in Hin. destruct Hin as [Hin|Hin].
      * apply JsMap.in_values_set in Hin. destruct Hin as [->|Hin].
        -- exists existing. split.
           ++ apply in_or_app. left. eapply JsMap.get_in_values; eauto.
           ++ eapply extends_trans; [|exact Hext].
              repeat split. simpl. eauto.
        -- exists t. split; [apply in_or_app; now left | assumption].
      * exists t. split; [apply in_or_app; right; now right | assumption].
    + intros E. destruct (IH _ _ E) as [Hlen Hall].
      rewrite JsMap.length_set, Eh in Hlen. split; [lia|].
      eapply Forall_impl; [|exact Hall]. intros t' (t & Hin & Hext).
      apply in_app_or in Hin. destruct Hin as [Hin|Hin].
      * apply JsMap.in_values_set in Hin. destruct Hin as [->|Hin].
        -- exists trace. split; [apply in_or_app; right; now left | assumption].
        -- exists t. split; [apply in_or_app; now left | assumption].
      * exists t. split; [apply in_or_app; right; now right | assumption].
Qed.

(** X2 (visualize only merges).  When [visualize()] returns with no
    sub-solver active, [getOutput()] afterwards has at most as many traces
    as before, and each of them carries the identifier and net of a trace
    that was there before, with that trace's polyline as the start of its
    own: the call can drop traces and append points, nothing else. *)
Theorem visualize_only_merges (s : TraceCleanupSolver) :
  activeSubSolver s = None ->
  vis_threw (visualize s) = false ->
  List.length (getOutput (vis_next (visualize s))) <= List.length (getOutput s)
  /\ Forall (fun t' => exists t, In t (getOutput s) /\ extends t t')
       (getOutput (vis_next (visualize s))).
Proof.
  intros Hs. unfold visualize, getOutput. rewrite Hs.
  destruct (mergeLoop firstKey (outputTraces s) JsMap.empty) as [m1|] eqn:E1;
    [|discriminate].
  simpl outputTraces.
  destruct (mergeLoop secondKey (JsMap.values m1) JsMap.empty) as [m2|] eqn:E2;
    [|discriminate].
  intros _. simpl.
  destruct (mergeLoop_extends _ _ _ _ E1) as [L1 A1].
  destruct (mergeLoop_extends _ _ _ _ E2) as [L2 A2].
  simpl in L1, L2, A1, A2. unfold JsMap.values in *.
  rewrite length_map in *. split; [lia|].
  eapply Forall_impl; [|exact A2]. intros t'' (t' & Hin' & Hext').
  rewrite Forall_forall in A1. destruct (A1 t' Hin') as (t & Hin & Hext).
  exists t. split; [assumption | eapply extends_trans; eauto].
Qed.

(** A merge loop over traces with pairwise different keys files each trace
    on its own. *)
Lemma mergeLoop_distinct (key : SolvedTracePath -> option string) :
  forall traces ks merged,
  map key traces = map Some ks ->
  NoDup (JsMap.keys merged ++ ks) ->
  exists m, mergeLoop key traces merged = Some m
            /\ JsMap.values m = JsMap.values merged ++ traces.
Proof.
  induction traces as [|trace rest IH]; intros ks merged Hk Hnd; simpl.
  - exists merged. now rewrite app_nil_r.
  - destruct ks as [|k ks]; [discriminate|].
    simpl in Hk. injection Hk as Hk Hks. rewrite Hk.
    assert (Hnew : ~ In k (JsMap.keys merged)).
    { intros Hin. apply NoDup_remove_2 in Hnd. apply Hnd.
      apply in_or_app. now left. }
    assert (Eh : JsMap.has k merged = false).
    { destruct (JsMap.has k merged) eqn:E; auto.
      apply JsMap.has_keys in E. contradiction. }
    rewrite Eh. rewrite JsMap.set_absent by assumption.
    destruct (IH ks (merged ++ [(k, trace)]) Hks) as (m & Em & Ev).
    + unfold JsMap.keys in *. rewrite map_app. simpl.
      rewrite <- app_assoc. exact Hnd.
    + exists m. split; [exact Em|].
      rewrite Ev. unfold JsMap.values. rewrite map_app, <- app_assoc.
      reflexivity.
Qed.

(** X3 (when visualize is a pure read).  With no sub-solver active, if the
    traces of the current output have pairwise different keys in the first
    merge loop and pairwise different keys in the second, [visualize()]
    returns and leaves the controller exactly as it was. *)
Theorem visualize_pure_when_keys_differ (s : TraceCleanupSolver)
  (ks1 ks2 : list string) :
  activeSubSolver s = None ->
  map firstKey (getOutput s) = map Some ks1 -> NoDup ks1 ->
  map secondKey (getOutput s) = map Some ks2 -> NoDup ks2 ->
  vis_next (visualize s) = s /\ vis_threw (visualize s) = false.
Proof.
  unfold getOutput. intros Hs K1 N1 K2 N2. unfold visualize. rewrite Hs.
  destruct (mergeLoop_distinct firstKey (outputTraces s) ks1 JsMap.empty K1 N1)
    as (m1 & E1 & V1).
  rewrite E1. simpl outputTraces. simpl in V1. rewrite V1.
  destruct (mergeLoop_distinct secondKey (outputTraces s) ks2 JsMap.empty K2 N2)
    as (m2 & E2 & V2).
  rewrite E2. simpl in V2. rewrite V2. simpl.
  split; [destruct s; reflexivity | reflexivity].
Qed.

(** X4 (when a call throws).  A call of [_step] throws in one situation
    only: no sub-solver is active, the phase is a per-trace phase, and the
    identifier at the head of the queue has no trace in the map.  The call
    has then consumed that identifier and made it the active one, and has
    left the map and the output as they were. *)
Theorem step_throws_only_on_missing_trace (s : TraceCleanupSolver) :
  (threw (_step s) = true <->
   activeSubSolver s = None /\ pipelineStep s <> untangling_traces
   /\ exists id rest, traceIdQueue s = id :: rest
                      /\ JsMap.get id (tracesMap s) = None)
  /\ (threw (_step s) = true ->
      tracesMap (next (_step s)) = tracesMap s
      /\ getOutput (next (_step s)) = getOutput s
      /\ exists id rest, traceIdQueue s = id :: rest
                         /\ traceIdQueue (next (_step s)) = rest
                         /\ activeTraceId (next (_step s)) = Some id).
Proof.
  split; [split|].
  - step_cases; intros; try discriminate;
      (split; [reflexivity | split; [congruence | eauto]]).
  - intros (Hs & Hp & id & rest & Hq & Hg). unfold_step. rewrite Hs, Hq.
    destruct (pipelineStep s); try congruence; simpl; rewrite Hg; reflexivity.
  - unfold getOutput. step_cases; intros; try discriminate;
      (split; [reflexivity | split; [reflexivity|]]);
      do 2 eexists; repeat split.
Qed.

(** X5 (solved is final).  Once a sequence of calls has set the solved
    flag, a further call returns without an error and leaves the
    controller exactly as it is. *)
Theorem solved_is_final (i : TraceCleanupSolverInput) (es : list Effect)
  (s : TraceCleanupSolver) :
  history i es s ->
  solved s = true ->
  _step s = ret s [SolvedFlagSet].
Proof.
  intros H Hs.
  destruct (history_invariants i es s H) as (_ & _ & Hsol & _).
  destruct (Hsol Hs) as (Hp & Hq & Hslot).
  unfold_step. rewrite Hslot, Hp, Hq.
  destruct s; simpl in *; subst; reflexivity.
Qed.

(** X6 (every trace is visited once the pipeline is solved).  When the
    solved flag is set, each per-trace phase has taken exactly the input's
    identifier list off the queue, in input order and with every
    repetition, and nothing was dequeued during untangling. *)
Theorem solved_after_full_visitation (i : TraceCleanupSolverInput)
  (es : list Effect) (s : TraceCleanupSolver) :
  history i es s ->
  solved s = true ->
  visited minimizing_turns es = ids (allTraces i)
  /\ visited balancing_l_shapes es = ids (allTraces i)
  /\ visited untangling_traces es = [].
Proof.
  intros H Hs.
  destruct (history_invariants i es s H) as (_ & _ & Hsol & Hv).
  destruct (Hsol Hs) as (Hp & Hq & _).
  unfold future_visits in Hv. rewrite Hp, Hq in Hv. simpl in Hv.
  rewrite app_nil_r in Hv. unfold visited. rewrite Hv. unfold roster_visits.
  rewrite !filter_app, !map_app.
  rewrite !visited_roster_same.
  rewrite !visited_roster_other by discriminate.
  rewrite ?app_nil_r. auto.
Qed.

(** The queue is what is left of the roster, and the active trace is one
    of the roster. *)
Definition queue_inv (s : TraceCleanupSolver) : Prop :=
  (exists done, done ++ traceIdQueue s = ids (allTraces (input s)))
  /\ (forall id, activeTraceId s = Some id -> In id (ids (allTraces (input s)))).

Lemma queue_inv_step (s : TraceCleanupSolver) :
  queue_inv s -> queue_inv (next (_step s)).
Proof.
  intros [[done Hd] Ha].
  assert (Hpop : forall id rest, traceIdQueue s = id :: rest ->
            (exists done', done' ++ rest = ids (allTraces (input s)))
            /\ In id (ids (allTraces (input s)))).
  { intros id rest Hq. rewrite Hq in Hd. split.
    - exists (done ++ [id]). rewrite <- app_assoc. exact Hd.
    - rewrite <- Hd. apply in_or_app. right. now left. }
  unfold queue_inv. step_cases.
  all: repeat match goal with H : traceIdQueue _ = _ |- _ => rewrite H end.
  all: try (split; [eexists; eassumption | assumption]).
  all: try (split; [exists []; reflexivity | assumption]).
  all: match goal with
       | |- (exists _, _ ++ ?rest = _) /\ (forall _, Some ?id = _ -> _) =>
           destruct (Hpop id rest eq_refl) as [Hrest Hin]
       end.
  all: split; [exact Hrest | intros id' E; injection E as <-; exact Hin].
Qed.

(** X7 (queue and active trace stay within the roster).  After any
    sequence of calls on a fresh controller, the queue is a final part of
    the input's identifier list, and the active trace identifier, once
    set, is one of the input's identifiers. *)
Theorem queue_is_roster_suffix (i : TraceCleanupSolverInput)
  (es : list Effect) (s : TraceCleanupSolver) :
  history i es s ->
  (exists done, done ++ traceIdQueue s = ids (allTraces i))
  /\ (forall id, activeTraceId s = Some id -> In id (ids (allTraces i))).
Proof.
  intros H.
  assert (Hin : input s = i) by apply (history_invariants i es s H).
  rewrite <- Hin. change (queue_inv s).
  clear Hin. induction H.
  - split; [exists []; reflexivity | discriminate].
  - now apply queue_inv_step.
Qed.

(** X8 (a per-trace call writes one entry in place).  With no sub-solver
    active, a call keeps the key sequence of the trace map, so neither the
    number nor the order of its traces changes, and it leaves every entry
    alone except that of the identifier at the head of the queue. *)
Theorem step_writes_in_place (s : TraceCleanupSolver) :
  activeSubSolver s = None ->
  JsMap.keys (tracesMap (next (_step s))) = JsMap.keys (tracesMap s)
  /\ (forall id, (forall rest, traceIdQueue s <> id :: rest) ->
      JsMap.get id (tracesMap (next (_step s))) = JsMap.get id (tracesMap s)).
Proof.
  intros Hs. split.
  - step_cases; try congruence; auto.
    all: apply JsMap.keys_set_present; eapply JsMap.get_Some_keys; eauto.
  - intros id Hq. now apply step_other_entries.
Qed.

Lemma step_all_rectangles (s : TraceCleanupSolver) :
  activeSubSolver s = None ->
  pipelineStep s <> untangling_traces ->
  Forall (fun t => is4PointRectangle (tracePath t) = true)
    (JsMap.values (tracesMap s)) ->
  tracesMap (next (_step s)) = tracesMap s
  /\ outputTraces (next (_step s)) = outputTraces s
  /\ forall p id, ~ In (TransformApplied p id) (effects (_step s)).
Proof.
  intros Hs Hp Hall.
  assert (Hrect : forall id t, JsMap.get id (tracesMap s) = Some t ->
                               is4PointRectangle (tracePath t) = true).
  { intros id t Hg.
    apply (@JsMap.Forall_values_get _ _ id t (tracesMap s) Hall Hg). }
  step_cases; try congruence.
  all: try (repeat split; auto; intros p id [E|[]]; discriminate E).
  all: match goal with
       | H : JsMap.get _ _ = Some _ |- _ => apply Hrect in H; congruence
       end.
Qed.

(** X9 (nothing to do on rectangles).  If every trace in the map is a
    4-point rectangle when the per-trace phases begin, no number of calls
    applies a transform, and the map and the output stay as they are. *)
Theorem all_rectangles_untouched (s : TraceCleanupSolver) (n : nat) :
  activeSubSolver s = None ->
  pipelineStep s <> untangling_traces ->
  Forall (fun t => is4PointRectangle (tracePath t) = true)
    (JsMap.values (tracesMap s)) ->
  tracesMap (next (run n s)) = tracesMap s
  /\ getOutput (next (run n s)) = getOutput s
  /\ forall p id, ~ In (TransformApplied p id) (effects (run n s)).
Proof.
  unfold getOutput. revert s. induction n as [|n IH]; intros s Hs Hp Hall; simpl.
  - auto.
  - destruct (step_all_rectangles s Hs Hp Hall) as (Hm & Ho & He).
    destruct (step_stays_per_trace s Hs Hp) as [Hs' Hp'].
    destruct (threw (_step s)); simpl; auto.
    destruct (IH (next (_step s)) Hs' Hp') as (Hm' & Ho' & He').
    { now rewrite Hm. }
    repeat split; try congruence.
    intros p id Hin. apply in_app_or in Hin. destruct Hin as [Hin|Hin].
    + now apply (He p id).
    + now apply (He' p id).
Qed.

(** While the sub-solver reports nothing, the controller keeps stepping it
    and changes nothing else. *)
Lemma stalled_run (n : nat) :
  forall (sub : UntangleTraceSubsolver) (s : TraceCleanupSolver),
  activeSubSolver s = Some sub ->
  (forall k, sub_solved (sub_steps (S k) sub) = false
             /\ sub_failed (sub_steps (S k) sub) = false) ->
  threw (run n s) = false
  /\ next (run n s) = set_activeSubSolver (Some (sub_steps n sub)) s.
Proof.
  induction n as [|n IH]; intros sub s Hs Hstall.
  - simpl. split; auto. destruct s; simpl in *; subst; reflexivity.
  - destruct (Hstall 0) as [Hsol Hfail]. simpl in Hsol, Hfail.
    assert (R : _step s =
                ret (set_activeSubSolver (Some (sub_step sub)) s) [SubSolverStep])
      by (unfold _step; now rewrite Hs, Hsol, Hfail).
    cbn [run]. rewrite R. cbn [ret threw next effects].
    destruct (IH (sub_step sub) (set_activeSubSolver (Some (sub_step sub)) s)
                eq_refl) as [A B].
    { intros k. apply (Hstall (S k)). }
    split; [exact A|]. rewrite B. reflexivity.
Qed.

(** X10 (no internal timeout).  If the sub-solver never reports solved or
    failed, the controller never leaves [untangling_traces]: after any
    number of calls the solved flag is down, nothing was thrown, and
    output, map and queue are those of the constructor. *)
Theorem stalled_subsolver_blocks (i : TraceCleanupSolverInput) (n : nat) :
  (forall k, sub_solved (sub_steps (S k) (untangler i)) = false
             /\ sub_failed (sub_steps (S k) (untangler i)) = false) ->
  let r := run n (new_TraceCleanupSolver i) in
  threw r = false
  /\ solved (next r) = false
  /\ pipelineStep (next r) = untangling_traces
  /\ getOutput (next r) = allTraces i
  /\ tracesMap (next r) = tracesMap (new_TraceCleanupSolver i)
  /\ traceIdQueue (next r) = ids (allTraces i).
Proof.
  intros Hstall r. subst r. destruct n as [|n].
  - simpl. auto 10.
  - change (S n) with (1 + n). rewrite run_add by reflexivity.
    cbn [threw next].
    change (next (run 1 (new_TraceCleanupSolver i)))
      with (set_activeSubSolver (Some (untangler i)) (new_TraceCleanupSolver i)).
    destruct (stalled_run n (untangler i)
                (set_activeSubSolver (Some (untangler i))
                   (new_TraceCleanupSolver i)) eq_refl Hstall) as [A B].
    rewrite A, B. simpl. auto 10.
Qed.

Lemma get_entries (ts : list SolvedTracePath) (t : SolvedTracePath) :
  NoDup (ids ts) -> In t ts -> JsMap.get (mspPairId t) (entries ts) = Some t.
Proof.
  intros Hnd Hin. apply JsMap.get_in_entries.
  - unfold JsMap.keys. now rewrite fst_entries.
  - unfold entries. apply in_map_iff. exists t. auto.
Qed.

(** X11 (constructor with unique identifiers).  When the input's
    identifiers are pairwise different, the constructed map holds the
    input's traces in input order, each under its own identifier; and
    output and queue are the input's traces and identifiers. *)
Theorem constructor_files_every_trace (i : TraceCleanupSolverInput) :
  NoDup (ids (allTraces i)) ->
  let s := new_TraceCleanupSolver i in
  JsMap.values (tracesMap s) = allTraces i
  /\ JsMap.keys (tracesMap s) = ids (allTraces i)
  /\ (forall t, In t (allTraces i) ->
      JsMap.get (mspPairId t) (tracesMap s) = Some t)
  /\ getOutput s = allTraces i
  /\ traceIdQueue s = ids (allTraces i).
Proof.
  intros Hnd s. subst s. simpl.
  assert (E : JsMap.of_entries (entries (allTraces i)) = entries (allTraces i))
    by (apply JsMap.of_entries_NoDup; now rewrite fst_entries).
  rewrite E. repeat split.
  - unfold JsMap.values, entries. rewrite map_map. simpl. apply map_id.
  - unfold JsMap.keys. apply fst_entries.
  - intros t Ht. now apply get_entries.
Qed.

(** X12 (constructor in general).  Whatever the input, the constructed map
    has pairwise different keys, which are exactly the identifiers that
    occur in the input, and every trace it holds is filed under its own
    identifier and comes from the input. *)
Theorem constructor_map_is_keyed (i : TraceCleanupSolverInput) :
  let m := tracesMap (new_TraceCleanupSolver i) in
  NoDup (JsMap.keys m)
  /\ (forall id, In id (JsMap.keys m) <-> In id (ids (allTraces i)))
  /\ (forall id t, JsMap.get id m = Some t ->
      mspPairId t = id /\ In t (allTraces i)).
Proof.
  intros m. subst m. simpl. split; [apply JsMap.NoDup_keys_of_entries|].
  split.
  - intros id. now rewrite JsMap.in_keys_of_entries, fst_entries.
  - intros id t Hg. split.
    + eapply JsMap.keyed_by_get; [|exact Hg]. apply JsMap.keyed_by_of_entries.
    + apply JsMap.get_in_values in Hg.
      apply JsMap.in_values_of_entries in Hg.
      unfold entries in Hg. rewrite map_map in Hg. simpl in Hg.
      now rewrite map_id in Hg.
Qed.

Lemma line_of_points (active : option string) (t : SolvedTracePath) :
  line_points (line_of active t) = tracePath t.
Proof.
  unfold line_of. simpl. induction (tracePath t) as [|[px py] l IH]; simpl; auto.
  now rewrite IH.
Qed.

Lemma line_of_red (active : option string) (t : SolvedTracePath) :
  strokeColor (line_of active t) = "red" <-> active = Some (mspPairId t).
Proof.
  unfold line_of, stroke_of. simpl. destruct active as [id|].
  - destruct (String.eqb_spec (mspPairId t) id) as [->|Hne].
    + tauto.
    + split; [discriminate | congruence].
  - split; discriminate.
Qed.

(** X15 (what visualize draws).  When [visualize()] returns with no
    sub-solver active, the picture has all five layers; its lines are those
    of the input problem's picture followed by one line per trace of
    [getOutput()] as it was before the call, in order, each with exactly the
    trace's points, and red exactly when the trace is the active one. *)
Theorem visualize_draws_current_traces (s : TraceCleanupSolver) :
  activeSubSolver s = None ->
  vis_threw (visualize s) = false ->
  exists g base drawn,
    graphics (visualize s) = Some g
    /\ lines g = Some (base ++ drawn)
    /\ or_empty (lines (visualizeInputProblem (inputProblem (input s))))
       = Some base
    /\ map line_points drawn = map tracePath (getOutput s)
    /\ Forall2 (fun l t => strokeColor l = "red"
                           <-> activeTraceId s = Some (mspPairId t))
         drawn (getOutput s)
    /\ points g <> None /\ rects g <> None /\ circles g <> None
    /\ texts g <> None.
Proof.
  intros Hs. unfold visualize, getOutput. rewrite Hs.
  destruct (mergeLoop firstKey (outputTraces s) JsMap.empty) as [m1|];
    [|discriminate].
  simpl outputTraces.
  destruct (mergeLoop secondKey (JsMap.values m1) JsMap.empty) as [m2|];
    [|discriminate].
  intros _. simpl graphics.
  set (g0 := visualizeInputProblem (inputProblem (input s))).
  exists (draw g0 (activeTraceId s) (outputTraces s)).
  exists (match lines g0 with Some l => l | None => [] end).
  exists (map (line_of (activeTraceId s)) (outputTraces s)).
  split; [reflexivity|].
  split; [unfold draw, or_empty; simpl; destruct (lines g0); reflexivity|].
  split; [unfold or_empty; destruct (lines g0); reflexivity|].
  split.
  { rewrite map_map. apply map_ext. intros t. apply line_of_points. }
  split.
  { induction (outputTraces s) as [|t l IH]; simpl; constructor; auto.
    apply line_of_red. }
  unfold draw, or_empty. simpl.
  repeat split;
    match goal with |- context [match ?x with _ => _ end] => destruct x end;
    discriminate.
Qed.

(** ** Identifiers under [_step]

    What the stepping code does to the set of identifiers, given that the
    collaborators keep their side: a transform answers with the identifier
    it was asked about, and a solved sub-solver hands back the identifiers
    it was constructed with. *)

Section Contracts.

Variable i : TraceCleanupSolverInput.

Hypothesis minimize_keeps_id :
  forall inp id ts, mspPairId (minimizeTurnsWithFilteredLabels inp id ts) = id.
Hypothesis balance_keeps_id :
  forall inp id ts, mspPairId (balanceZShapes inp id ts) = id.
Hypothesis untangle_keeps_ids :
  forall ts k id,
    sub_solved (sub_steps k (new_UntangleTraceSubsolver (with_allTraces ts i)))
    = true ->
    (In id (ids (sub_getOutput
                   (sub_steps k (new_UntangleTraceSubsolver (with_allTraces ts i)))))
     <-> In id (ids ts)).

Definition ids_stable (s : TraceCleanupSolver) : Prop :=
  input s = i
  /\ JsMap.keyed_by mspPairId (tracesMap s)
  /\ (forall id, In id (JsMap.keys (tracesMap s)) <-> In id (ids (allTraces i)))
  /\ (forall id, In id (ids (getOutput s)) <-> In id (ids (allTraces i)))
  /\ (forall sub, activeSubSolver s = Some sub ->
      exists k,
        sub = sub_steps k
                (new_UntangleTraceSubsolver
                   (with_allTraces (JsMap.values (tracesMap s)) i))).

Lemma sub_steps_succ (k : nat) (sub : UntangleTraceSubsolver) :
  sub_step (sub_steps k sub) = sub_steps (S k) sub.
Proof.
  revert sub. induction k as [|k IH]; intros sub; simpl; auto.
Qed.

Lemma ids_stable_new : ids_stable (new_TraceCleanupSolver i).
Proof.
  unfold ids_stable. simpl.
  split; [|split; [|split; [|split]]]; try tauto.
  - apply JsMap.keyed_by_of_entries.
  - intros id. rewrite JsMap.in_keys_of_entries, fst_entries. tauto.
  - discriminate.
Qed.

Lemma ids_stable_step (s : TraceCleanupSolver) :
  ids_stable s -> ids_stable (next (_step s)).
Proof.
  intros (Hin & Hkb & Hkeys & Hout & Hsub).
  pose proof (JsMap.keyed_by_values Hkb) as Hvals.
  fold (ids (JsMap.values (tracesMap s))) in Hvals.
  assert (Hsame : forall s', input s' = input s -> tracesMap s' = tracesMap s ->
                            outputTraces s' = outputTraces s ->
                            activeSubSolver s' = None -> ids_stable s').
  { intros s' E1 E2 E3 E4. unfold ids_stable, getOutput.
    rewrite E1, E2, E3, E4.
    split; [|split; [|split; [|split]]]; auto. discriminate. }
  unfold _step. destruct (activeSubSolver s) as [sub|] eqn:Es.
  - destruct (Hsub sub eq_refl) as [k Ek].
    pose proof (sub_steps_succ k
                  (new_UntangleTraceSubsolver
                     (with_allTraces (JsMap.values (tracesMap s)) i))) as Hk.
    rewrite <- Ek in Hk.
    destruct (sub_solved (sub_step sub)) eqn:Esol;
      [|destruct (sub_failed (sub_step sub))].
    + rewrite Hk in Esol.
      assert (Hids : forall id, In id (ids (sub_getOutput (sub_step sub)))
                                <-> In id (ids (allTraces i))).
      { intros id.
        rewrite Hk, (untangle_keeps_ids _ _ id Esol), Hvals. apply Hkeys. }
      unfold ids_stable, getOutput. simpl.
      split; [|split; [|split; [|split]]]; auto.
      * apply JsMap.keyed_by_of_entries.
      * intros id. rewrite JsMap.in_keys_of_entries, fst_entries. apply Hids.
      * discriminate.
    + now apply Hsame.
    + unfold ids_stable. simpl.
      split; [|split; [|split; [|split]]]; auto.
      intros sub' E. injection E as <-. exists (S k). exact Hk.
  - assert (Hproc : forall p, p <> untangling_traces ->
                              ids_stable (next (_processTrace p s))).
    { intros p Hp. unfold _processTrace.
      destruct (traceIdQueue s) as [|id rest]; [now apply Hsame|].
      simpl. destruct (JsMap.get id (tracesMap s)) as [t|] eqn:Eg;
        [|now apply Hsame].
      destruct (is4PointRectangle (tracePath t)); [now apply Hsame|].
      pose proof (@JsMap.get_Some_keys _ _ _ _ Eg) as Hk.
      set (u := match p with
                | minimizing_turns => minimizeTurnsWithFilteredLabels _ _ _
                | _ => balanceZShapes _ _ _
                end).
      assert (Hu : mspPairId u = id) by (unfold u; destruct p; auto).
      assert (Hkb' : JsMap.keyed_by mspPairId (JsMap.set id u (tracesMap s)))
        by (apply JsMap.keyed_by_set; auto).
      assert (Hkeys' : forall id',
                 In id' (JsMap.keys (JsMap.set id u (tracesMap s)))
                 <-> In id' (ids (allTraces i))).
      { intros id'. rewrite JsMap.keys_set_present by exact Hk. apply Hkeys. }
      unfold ids_stable, getOutput. simpl.
      split; [|split; [|split; [|split]]]; auto.
      - intros id'. unfold ids. rewrite (JsMap.keyed_by_values Hkb').
        apply Hkeys'.
      - rewrite Es. discriminate. }
    destruct (pipelineStep s).
    + unfold _runMinimizeTurnsStep. destruct (traceIdQueue s) eqn:Eq.
      * now apply Hsame.
      * apply Hproc. discriminate.
    + unfold _runBalanceLShapesStep. destruct (traceIdQueue s) eqn:Eq.
      * now apply Hsame.
      * apply Hproc. discriminate.
    + unfold _runUntangleTracesStep, ids_stable, getOutput. simpl.
      split; [|split; [|split; [|split]]]; auto.
      intros sub E. injection E as <-. exists 0. simpl. now rewrite Hin.
Qed.

(** Stepping alone keeps the identifiers: after any sequence of [step()]
    calls the output and the map hold exactly the input's identifiers. *)
Lemma steps_keep_identifiers (s : TraceCleanupSolver) :
  reachable i s ->
  forall id,
    (In id (ids (getOutput s)) <-> In id (ids (allTraces i)))
    /\ (In id (JsMap.keys (tracesMap s)) <-> In id (ids (allTraces i))).
Proof.
  intros Hr.
  assert (H : ids_stable s).
  { induction Hr; [apply ids_stable_new | now apply ids_stable_step]. }
  destruct H as (_ & _ & Hkeys & Hout & _). intros id. split; auto.
Qed.

(** X13 (identifiers are kept by stepping).  If each transform answers
    with the identifier it was asked about and a solved sub-solver hands
    back the identifiers it was constructed with, then after any sequence of
    calls on a fresh controller the output and the map hold exactly the
    identifiers of the input. *)
Theorem identifiers_kept_by_steps (es : list Effect) (s : TraceCleanupSolver)
  (id : string) :
  history i es s ->
  (In id (ids (getOutput s)) <-> In id (ids (allTraces i)))
  /\ (In id (JsMap.keys (tracesMap s)) <-> In id (ids (allTraces i))).
Proof.
  intros H.
  assert (Hst : ids_stable s).
  { induction H; [apply ids_stable_new | now apply ids_stable_step]. }
  destruct Hst as (_ & _ & Hkeys & Hout & _). split; auto.
Qed.

(** The map is the one [new Map] builds from the output. *)
Definition coherent (s : TraceCleanupSolver) : Prop :=
  tracesMap s = JsMap.of_entries (entries (getOutput s)).

Lemma coherent_step (s : TraceCleanupSolver) :
  coherent s -> coherent (next (_step s)).
Proof.
  unfold coherent, getOutput. intros Hc.
  assert (Hset : forall id u, mspPairId u = id ->
            JsMap.set id u (tracesMap s)
            = JsMap.of_entries
                (entries (JsMap.values (JsMap.set id u (tracesMap s))))).
  { intros id u Hu. symmetry. apply (JsMap.of_entries_values (key_of := mspPairId)).
    - apply JsMap.keyed_by_set; auto. rewrite Hc.
      apply JsMap.keyed_by_of_entries.
    - apply JsMap.NoDup_keys_set. rewrite Hc.
      apply JsMap.NoDup_keys_of_entries. }
  step_cases; auto.
Qed.

(** X14 (map and output agree under stepping).  If each transform answers
    with the identifier it was asked about, then after any sequence of
    calls on a fresh controller the trace map is the map that [new Map]
    builds from [getOutput()]: stepping never lets the two drift apart. *)
Theorem map_rebuilt_from_output (es : list Effect) (s : TraceCleanupSolver) :
  history i es s ->
  tracesMap s = JsMap.of_entries (entries (getOutput s)).
Proof.
  intros H. change (coherent s).
  induction H; [reflexivity | now apply coherent_step].
Qed.

End Contracts.

End Controller.

(** ** Concrete scenarios

    Integer coordinates, no auxiliary context, and small stand-ins for the
    collaborators, to run the controller on. *)

Module Scenario.

Definition pt (a b : Z) : Point Z := mkPoint a b.

(** [Math.round(v * 100)] of an integer [v], printed in decimal. *)
Definition round100 (v : Z) : string := NilZero.string_of_int (Z.to_int (v * 100)%Z).

(** Modelled from the spec: [is4PointRectangle.ts] is not under src/.  The
    spec names it the check whether a polyline is an axis-aligned rectangle
    described by exactly 4 points: the four points are the corners of a
    rectangle with sides along the axes, so the three segments are
    axis-aligned, turn at each corner, have a length, and the two end
    points are level with each other. *)
Definition is4PointRectangle (path : list (Point Z)) : bool :=
  match path with
  | [p0; p1; p2; p3] =>
      ((x p0 =? x p1) && (y p1 =? y p2) && (x p2 =? x p3) && (y p0 =? y p3)
       && negb (y p0 =? y p1) && negb (x p1 =? x p2)
       || (y p0 =? y p1) && (x p1 =? x p2) && (y p2 =? y p3) && (x p0 =? x p3)
          && negb (x p0 =? x p1) && negb (y p1 =? y p2))%Z
  | _ => false
  end.

Definition Input := TraceCleanupSolverInput Z unit unit unit.

Definition endpoints (path : list (Point Z)) : list (Point Z) :=
  match path with
  | [] => []
  | [p0] => [p0]
  | p0 :: rest => [p0; last rest p0]
  end.

Definition target (id : string) (ts : list (SolvedTracePath Z))
  : option (SolvedTracePath Z) :=
  find (fun t => String.eqb (mspPairId t) id) ts.

(** Stand-in for [minimizeTurnsWithFilteredLabels]: the target trace cut
    down to its end points. *)
Definition minimizeTurnsWithFilteredLabels (inp : Input) (id : string)
  (ts : list (SolvedTracePath Z)) : SolvedTracePath Z :=
  match target id ts with
  | Some t => with_tracePath (endpoints (tracePath t)) t
  | None => mkTrace id "" []
  end.

(** Stand-in for [balanceZShapes]: the target trace as it is. *)
Definition balanceZShapes (inp : Input) (id : string)
  (ts : list (SolvedTracePath Z)) : SolvedTracePath Z :=
  match target id ts with
  | Some t => t
  | None => mkTrace id "" []
  end.

Definition visualizeInputProblem (_ : unit) : GraphicsObject Z unit unit unit unit :=
  mkGraphics None None None None None.

(** The scenario of the specification: a 4-point rectangle and an 8-point
    zig-zag. *)
Definition rectangle : SolvedTracePath Z :=
  mkTrace "rect" "net1" [pt 0 0; pt 0 10; pt 10 10; pt 10 0].

Definition zigzag : SolvedTracePath Z :=
  mkTrace "zigzag" "net2"
    [pt 0 20; pt 5 20; pt 5 25; pt 10 25; pt 10 30; pt 15 30; pt 15 35; pt 20 35].

Definition two_traces : Input := mkInput tt [rectangle; zigzag] [] tt 0%Z.

(** Two traces of one net whose first points lie on the same horizontal. *)
Definition left_half : SolvedTracePath Z := mkTrace "a" "GND" [pt 0 0; pt 5 0].
Definition right_half : SolvedTracePath Z := mkTrace "b" "GND" [pt 5 0; pt 9 0].

Definition same_net : Input := mkInput tt [left_half; right_half] [] tt 0%Z.

(** A trace without points. *)
Definition pointless : SolvedTracePath Z := mkTrace "e" "net3" [].

(** A sub-solver that reports failed whenever it is asked. *)
Module Failing.
Definition Sub := unit.
Definition create (_ : Input) : Sub := tt.
Definition step (s : Sub) : Sub := s.
Definition solved (_ : Sub) : bool := false.
Definition failed (_ : Sub) : bool := true.
Definition getOutput (_ : Sub) : list (SolvedTracePath Z) := [].
Definition draw (_ : Sub) : GraphicsObject Z unit unit unit unit :=
  mkGraphics None None None None None.
Definition advance :=
  _step is4PointRectangle minimizeTurnsWithFilteredLabels balanceZShapes
    create step solved failed getOutput.
Definition calls :=
  run is4PointRectangle minimizeTurnsWithFilteredLabels balanceZShapes
    create step solved failed getOutput.
Definition fresh (i : Input) := new_TraceCleanupSolver Sub i.
Definition show (s : TraceCleanupSolver Z unit unit unit Sub) :=
  visualize Z.eqb round100 visualizeInputProblem draw s.
End Failing.

(** A sub-solver that reports solved on its first step and hands back no
    trace at all. *)
Module Dropping.
Definition Sub := unit.
Definition create (_ : Input) : Sub := tt.
Definition step (s : Sub) : Sub := s.
Definition solved (_ : Sub) : bool := true.
Definition failed (_ : Sub) : bool := false.
Definition getOutput (_ : Sub) : list (SolvedTracePath Z) := [].
Definition calls :=
  run is4PointRectangle minimizeTurnsWithFilteredLabels balanceZShapes
    create step solved failed getOutput.
Definition fresh (i : Input) := new_TraceCleanupSolver Sub i.
End Dropping.

(** A sub-solver that needs two steps and hands back the traces it was
    given. *)
Module Keeping.
Definition Sub := (list (SolvedTracePath Z) * nat)%type.
Definition create (i : Input) : Sub := (allTraces i, 2).
Definition step (s : Sub) : Sub := (fst s, Nat.pred (snd s)).
Definition solved (s : Sub) : bool := Nat.eqb (snd s) 0.
Definition failed (_ : Sub) : bool := false.
Definition getOutput (s : Sub) : list (SolvedTracePath Z) := fst s.
Definition calls :=
  run is4PointRectangle minimizeTurnsWithFilteredLabels balanceZShapes
    create step solved failed getOutput.
Definition fresh (i : Input) := new_TraceCleanupSolver Sub i.
End Keeping.

(** A sub-solver that reports solved on its first step and hands back one
    trace more than it was given. *)
Module Adding.
Definition Sub := list (SolvedTracePath Z).
Definition extra : SolvedTracePath Z := mkTrace "extra" "net9" [pt 1 1; pt 2 1].
Definition create (i : Input) : Sub := allTraces i ++ [extra].
Definition step (s : Sub) : Sub := s.
Definition solved (_ : Sub) : bool := true.
Definition failed (_ : Sub) : bool := false.
Definition getOutput (s : Sub) : list (SolvedTracePath Z) := s.
Definition calls :=
  run is4PointRectangle minimizeTurnsWithFilteredLabels balanceZShapes
    create step solved failed getOutput.
Definition fresh (i : Input) := new_TraceCleanupSolver Sub i.
End Adding.

(** A sub-solver that reports solved on its first step and hands back the
    traces it was given with the last corner of the rectangle moved. *)
Module Bending.
Definition Sub := list (SolvedTracePath Z).
Definition bent : SolvedTracePath Z :=
  mkTrace "rect" "net1" [pt 0 0; pt 0 10; pt 10 10; pt 10 5].
Definition bend (t : SolvedTracePath Z) : SolvedTracePath Z :=
  if String.eqb (mspPairId t) "rect" then bent else t.
Definition create (i : Input) : Sub := map bend (allTraces i).
Definition step (s : Sub) : Sub := s.
Definition solved (_ : Sub) : bool := true.
Definition failed (_ : Sub) : bool := false.
Definition getOutput (s : Sub) : list (SolvedTracePath Z) := s.
Definition calls :=
  run is4PointRectangle minimizeTurnsWithFilteredLabels balanceZShapes
    create step solved failed getOutput.
Definition fresh (i : Input) := new_TraceCleanupSolver Sub i.
End Bending.

(** After the failed sub-solver: [minimizing_turns], queue [rect; zigzag]. *)
Definition at_minimizing :=
  next (Failing.calls 2 (Failing.fresh two_traces)).

(** After both traces were minimized: [minimizing_turns], queue empty. *)
Definition minimizing_done :=
  next (Failing.calls 4 (Failing.fresh two_traces)).

(** The pipeline run to its end on the two traces of one net. *)
Definition same_net_done :=
  next (Failing.calls 8 (Failing.fresh same_net)).

(** Witness of C4: the call that leaves [minimizing_turns] in the scenario
    of the specification. *)
Lemma phase_ordering_witness :
  let es := effects (Failing.calls 4 (Failing.fresh two_traces)) in
  let s := minimizing_done in
  let s' := next (Failing.advance s) in
  phase_rank (pipelineStep s) <= phase_rank (pipelineStep s')
  /\ (pipelineStep s' = balancing_l_shapes ->
      pipelineStep s <> balancing_l_shapes ->
      pipelineStep s = minimizing_turns /\ traceIdQueue s = []
      /\ activeSubSolver s = None)
  /\ (pipelineStep s = balancing_l_shapes ->
      visited minimizing_turns es = ids (allTraces two_traces))
  /\ (pipelineStep s' = minimizing_turns ->
      pipelineStep s <> minimizing_turns ->
      activeSubSolver s' = None
      /\ exists sub, activeSubSolver s = Some sub
           /\ (Failing.solved (Failing.step sub) = true
               \/ Failing.failed (Failing.step sub) = true))
  /\ (pipelineStep s <> untangling_traces -> activeSubSolver s = None).
Proof.
  apply (phase_ordering Z unit unit unit is4PointRectangle
           minimizeTurnsWithFilteredLabels balanceZShapes Failing.Sub
           Failing.create Failing.step Failing.solved Failing.failed
           Failing.getOutput two_traces).
  apply history_run.
Defined.

(** The reseed does not look at the map: with a sub-solver that added a
    trace, the balancing queue is still the input's roster, and the added
    trace is never visited. *)
Lemma reseed_ignores_untangled_traces :
  let after_reseed := next (Adding.calls 5 (Adding.fresh two_traces)) in
  let finished := Adding.calls 8 (Adding.fresh two_traces) in
  pipelineStep after_reseed = balancing_l_shapes
  /\ JsMap.keys (tracesMap after_reseed) = ["rect"; "zigzag"; "extra"]
  /\ traceIdQueue after_reseed = ["rect"; "zigzag"]
  /\ solved (next finished) = true
  /\ visited balancing_l_shapes (effects finished) = ["rect"; "zigzag"].
Proof. repeat split. Qed.

(** The call that dequeues the rectangle: one unit of work, the processing
    of that trace, with no transform in it. *)
Lemma rectangle_call_is_one_unit :
  effects (Failing.advance at_minimizing) = [TraceDequeued minimizing_turns "rect"]
  /\ units (effects (Failing.advance at_minimizing))
     = [TraceDequeued minimizing_turns "rect"].
Proof. split; reflexivity. Qed.

(** Counterexample to C7 as stated: in [untangling_traces] the call that
    adopts the solved sub-solver's output replaces the rectangle's entry by
    what the sub-solver returned, here a polyline with its last corner
    moved. *)
Lemma adopted_output_bends_rectangle :
  JsMap.get "rect" (tracesMap (Bending.fresh two_traces)) = Some rectangle
  /\ is4PointRectangle (tracePath rectangle) = true
  /\ pipelineStep (next (Bending.calls 1 (Bending.fresh two_traces)))
     = untangling_traces
  /\ threw (Bending.calls 2 (Bending.fresh two_traces)) = false
  /\ JsMap.get "rect" (tracesMap (next (Bending.calls 2 (Bending.fresh two_traces))))
     = Some (mkTrace "rect" "net1" [pt 0 0; pt 0 10; pt 10 10; pt 10 5])
  /\ getOutput (next (Bending.calls 2 (Bending.fresh two_traces)))
     = [mkTrace "rect" "net1" [pt 0 0; pt 0 10; pt 10 10; pt 10 5]; zigzag].
Proof. repeat split. Qed.

(** Witness of C7: the rectangle of the scenario.  The call that steps the
    failing sub-solver leaves its entry alone, and so do the six calls from
    the start of [minimizing_turns] to the end of the pipeline, the first
    of which dequeues it without a transform. *)
Lemma rectangle_invariance_witness :
  JsMap.get "rect"
    (tracesMap (next (Failing.advance (next (Failing.calls 1 (Failing.fresh two_traces))))))
  = Some rectangle
  /\ JsMap.get "rect" (tracesMap (next (Failing.calls 6 at_minimizing)))
     = Some rectangle
  /\ Failing.advance at_minimizing =
     ret (set_activeTraceId (Some "rect")
            (set_traceIdQueue ["zigzag"] at_minimizing))
       [TraceDequeued minimizing_turns "rect"].
Proof.
  split.
  - destruct (rectangle_invariance Z unit unit unit is4PointRectangle
                minimizeTurnsWithFilteredLabels balanceZShapes Failing.Sub
                Failing.create Failing.step Failing.solved Failing.failed
                Failing.getOutput
                (next (Failing.calls 1 (Failing.fresh two_traces)))
                "rect" rectangle 0 eq_refl eq_refl) as [H _].
    apply H. intros sub _. reflexivity.
  - destruct (rectangle_invariance Z unit unit unit is4PointRectangle
                minimizeTurnsWithFilteredLabels balanceZShapes Failing.Sub
                Failing.create Failing.step Failing.solved Failing.failed
                Failing.getOutput at_minimizing "rect" rectangle 6
                eq_refl eq_refl) as [_ H].
    destruct H as [H6 Hcall].
    + reflexivity.
    + vm_compute. discriminate.
    + split; [exact H6 | exact (Hcall ["zigzag"] eq_refl)].
Defined.

(** Witness of C9: the zig-zag in the complete run of the scenario. *)
Lemma at_most_one_visit_witness :
  let es := effects (Failing.calls 8 (Failing.fresh two_traces)) in
  count_occ Effect_eq_dec es (TraceDequeued minimizing_turns "zigzag") <= 1
  /\ count_occ Effect_eq_dec es (TransformApplied minimizing_turns "zigzag")
     <= count_occ Effect_eq_dec es (TraceDequeued minimizing_turns "zigzag").
Proof.
  apply (at_most_one_visit Z unit unit unit is4PointRectangle
           minimizeTurnsWithFilteredLabels balanceZShapes Failing.Sub
           Failing.create Failing.step Failing.solved Failing.failed
           Failing.getOutput two_traces _
           (next (Failing.calls 8 (Failing.fresh two_traces)))
           minimizing_turns "zigzag").
  - simpl. repeat constructor; simpl; intuition discriminate.
  - apply history_run.
Defined.

(** Witness of C8: the complete run of the scenario visits the roster
    twice, in input order. *)
Lemma original_roster_reseed_witness :
  let es := effects (Failing.calls 8 (Failing.fresh two_traces)) in
  let s := next (Failing.calls 8 (Failing.fresh two_traces)) in
  (pipelineStep s = minimizing_turns -> traceIdQueue s = [] ->
   Failing.advance s =
   ret (set_traceIdQueue (ids (allTraces two_traces))
          (set_pipelineStep balancing_l_shapes s))
     [QueueReseeded])
  /\ exists rest,
       visits es ++ rest
       = [(minimizing_turns, "rect"); (minimizing_turns, "zigzag");
          (balancing_l_shapes, "rect"); (balancing_l_shapes, "zigzag")]
       /\ (solved s = true -> rest = []).
Proof.
  apply (original_roster_reseed Z unit unit unit is4PointRectangle
           minimizeTurnsWithFilteredLabels balanceZShapes Failing.Sub
           Failing.create Failing.step Failing.solved Failing.failed
           Failing.getOutput two_traces).
  apply history_run.
Defined.

(** Witness of C3: the scenario of the specification with the sub-solver
    that always fails. *)
Lemma failure_resilience_witness :
  Failing.calls 2 (Failing.fresh two_traces) =
  ret (set_pipelineStep minimizing_turns (Failing.fresh two_traces))
    [SubSolverInstantiated; SubSolverStep]
  /\ threw (Failing.calls 8 (Failing.fresh two_traces)) = false
  /\ solved (next (Failing.calls 8 (Failing.fresh two_traces))) = true.
Proof.
  apply (failure_resilience Z unit unit unit is4PointRectangle
           minimizeTurnsWithFilteredLabels balanceZShapes Failing.Sub
           Failing.create Failing.step Failing.solved Failing.failed
           Failing.getOutput two_traces).
  - intros sub. reflexivity.
  - intros sub. reflexivity.
Defined.

(** Counterexample to C5 as stated: the sub-solver reports solved on its
    first step, its output holds none of the input's traces, the third
    call throws on the missing trace, and no number of calls reaches the
    solved flag. *)
Lemma dropped_trace_stops_the_pipeline :
  Dropping.solved (Dropping.step (Dropping.create two_traces)) = true
  /\ threw (Dropping.calls 3 (Dropping.fresh two_traces)) = true
  /\ (forall n, solved (next (Dropping.calls n (Dropping.fresh two_traces)))
                = false).
Proof.
  split; [reflexivity|]. split; [reflexivity|].
  intros n. destruct n as [|[|[|n]]]; reflexivity.
Qed.

Lemma Keeping_output (j : nat) (sub : Keeping.Sub) :
  Keeping.getOutput (sub_steps Keeping.step j sub) = fst sub.
Proof.
  revert sub. induction j as [|j IH]; intros sub; simpl; auto.
  now rewrite IH.
Qed.

(** Witness of C5: the scenario of the specification with a sub-solver
    that solves on its second step and keeps every trace. *)
Lemma forward_progress_witness :
  exists n, n <= 1 + 2 + 2 * (List.length (allTraces two_traces) + 1)
    /\ threw (Keeping.calls n (Keeping.fresh two_traces)) = false
    /\ solved (next (Keeping.calls n (Keeping.fresh two_traces))) = true.
Proof.
  apply (forward_progress Z unit unit unit is4PointRectangle
           minimizeTurnsWithFilteredLabels balanceZShapes Keeping.Sub
           Keeping.create Keeping.step Keeping.solved Keeping.failed
           Keeping.getOutput two_traces 2).
  - lia.
  - left. reflexivity.
  - intros j _. rewrite Keeping_output. simpl. apply incl_refl.
Defined.

(** Witness of C10: a drawable state, and a state that holds a trace
    without points. *)
Lemma visualize_indexing_witness :
  vis_threw (Failing.show (Failing.fresh same_net)) = false
  /\ vis_threw
       (Failing.show (Failing.fresh (mkInput tt [left_half; pointless] [] tt 0%Z)))
     = true.
Proof.
  split.
  - apply (visualize_indexing Z Z.eqb round100 unit unit unit unit unit unit
             unit visualizeInputProblem Failing.Sub Failing.draw
             (Failing.fresh same_net) eq_refl).
    simpl. repeat constructor; discriminate.
  - apply (visualize_indexing Z Z.eqb round100 unit unit unit unit unit unit
             unit visualizeInputProblem Failing.Sub Failing.draw
             (Failing.fresh (mkInput tt [left_half; pointless] [] tt 0%Z))
             eq_refl).
    simpl. apply Exists_cons_tl, Exists_cons_hd. reflexivity.
Defined.

Lemma target_id (id : string) (ts : list (SolvedTracePath Z))
  (t : SolvedTracePath Z) :
  target id ts = Some t -> mspPairId t = id.
Proof.
  unfold target. intros H. apply find_some in H. now apply String.eqb_eq.
Qed.

(** The stand-ins keep the contracts of [steps_keep_identifiers]: in the
    scenario of the specification with the sub-solver that keeps every
    trace, the identifiers are the input's after any number of calls. *)
Lemma scenario_keeps_identifiers (n : nat) (id : string) :
  In id (ids (getOutput (next (Keeping.calls n (Keeping.fresh two_traces)))))
  <-> In id (ids (allTraces two_traces)).
Proof.
  apply (steps_keep_identifiers Z unit unit unit is4PointRectangle
           minimizeTurnsWithFilteredLabels balanceZShapes Keeping.Sub
           Keeping.create Keeping.step Keeping.solved Keeping.failed
           Keeping.getOutput two_traces).
  - intros inp id' ts. unfold minimizeTurnsWithFilteredLabels.
    destruct (target id' ts) eqn:E; [|reflexivity].
    simpl. now apply target_id in E.
  - intros inp id' ts. unfold balanceZShapes.
    destruct (target id' ts) eqn:E; [|reflexivity].
    now apply target_id in E.
  - intros ts k id' _. rewrite Keeping_output. reflexivity.
  - apply reachable_run. apply reach_new.
Qed.

(** C1, on the code: [visualize()] is not a pure read.  On a fresh
    controller holding two traces of one net that start on the same
    horizontal, the call returns normally, leaves the trace map alone, and
    replaces the two traces of [getOutput()] by one merged trace. *)
Theorem visualize_rewrites_output :
  let s := Failing.fresh same_net in
  let s' := vis_next (Failing.show s) in
  getOutput s = [left_half; right_half]
  /\ vis_threw (Failing.show s) = false
  /\ tracesMap s' = tracesMap s
  /\ getOutput s' = [mkTrace "a" "GND" [pt 0 0; pt 5 0; pt 9 0]].
Proof. repeat split. Qed.

(** C2, on the code: after the pipeline has finished on the same input,
    [getOutput()] holds both identifiers; one call of [visualize()] later
    it holds only the first. *)
Theorem visualize_drops_identifier :
  solved same_net_done = true
  /\ ids (allTraces same_net) = ["a"; "b"]
  /\ ids (getOutput same_net_done) = ["a"; "b"]
  /\ ids (getOutput (vis_next (Failing.show same_net_done))) = ["a"].
Proof. repeat split. Qed.

(** *** Scenarios for the further properties *)

(** A sub-solver that never reports an outcome. *)
Module Stalling.
Definition Sub := nat.
Definition create (_ : Input) : Sub := 0.
Definition step (s : Sub) : Sub := S s.
Definition solved (_ : Sub) : bool := false.
Definition failed (_ : Sub) : bool := false.
Definition getOutput (_ : Sub) : list (SolvedTracePath Z) := [].
Definition calls :=
  run is4PointRectangle minimizeTurnsWithFilteredLabels balanceZShapes
    create step solved failed getOutput.
Definition fresh (i : Input) := new_TraceCleanupSolver Sub i.
End Stalling.

(** An input whose only trace is the rectangle. *)
Definition only_rectangle : Input := mkInput tt [rectangle] [] tt 0%Z.

Lemma minimize_stand_in_keeps_id (inp : Input) (id : string)
  (ts : list (SolvedTracePath Z)) :
  mspPairId (minimizeTurnsWithFilteredLabels inp id ts) = id.
Proof.
  unfold minimizeTurnsWithFilteredLabels.
  destruct (target id ts) eqn:E; [|reflexivity].
  simpl. now apply target_id in E.
Qed.

Lemma balance_stand_in_keeps_id (inp : Input) (id : string)
  (ts : list (SolvedTracePath Z)) :
  mspPairId (balanceZShapes inp id ts) = id.
Proof.
  unfold balanceZShapes.
  destruct (target id ts) eqn:E; [|reflexivity].
  now apply target_id in E.
Qed.

(** Witness of X2: the two traces of one net, merged into one. *)
Lemma visualize_only_merges_witness :
  let s := Failing.fresh same_net in
  List.length (getOutput (vis_next (Failing.show s))) <= List.length (getOutput s)
  /\ Forall (fun t' => exists t, In t (getOutput s) /\ extends Z t t')
       (getOutput (vis_next (Failing.show s))).
Proof.
  apply (visualize_only_merges Z Z.eqb round100 unit unit unit unit unit unit
           unit visualizeInputProblem Failing.Sub Failing.draw
           (Failing.fresh same_net)); reflexivity.
Defined.

(** Witness of X3: the rectangle and the zig-zag lie on different nets. *)
Lemma visualize_pure_when_keys_differ_witness :
  vis_next (Failing.show (Failing.fresh two_traces)) = Failing.fresh two_traces
  /\ vis_threw (Failing.show (Failing.fresh two_traces)) = false.
Proof.
  apply (visualize_pure_when_keys_differ Z Z.eqb round100 unit unit unit unit
           unit unit unit visualizeInputProblem Failing.Sub Failing.draw
           (Failing.fresh two_traces)
           ["net1-0"; "net2-2000"] ["net1-y0"; "net2-x0"]).
  - reflexivity.
  - reflexivity.
  - repeat constructor; simpl; intuition discriminate.
  - reflexivity.
  - repeat constructor; simpl; intuition discriminate.
Defined.

(** Witness of X5: the finished run of the scenario. *)
Lemma solved_is_final_witness :
  Failing.advance (next (Failing.calls 8 (Failing.fresh two_traces)))
  = ret (next (Failing.calls 8 (Failing.fresh two_traces))) [SolvedFlagSet].
Proof.
  apply (solved_is_final Z unit unit unit is4PointRectangle
           minimizeTurnsWithFilteredLabels balanceZShapes Failing.Sub
           Failing.create Failing.step Failing.solved Failing.failed
           Failing.getOutput two_traces
           (effects (Failing.calls 8 (Failing.fresh two_traces)))).
  - apply history_run.
  - reflexivity.
Defined.

(** Witness of X6: the finished run of the scenario. *)
Lemma solved_after_full_visitation_witness :
  let es := effects (Failing.calls 8 (Failing.fresh two_traces)) in
  visited minimizing_turns es = ids (allTraces two_traces)
  /\ visited balancing_l_shapes es = ids (allTraces two_traces)
  /\ visited untangling_traces es = [].
Proof.
  apply (solved_after_full_visitation Z unit unit unit is4PointRectangle
           minimizeTurnsWithFilteredLabels balanceZShapes Failing.Sub
           Failing.create Failing.step Failing.solved Failing.failed
           Failing.getOutput two_traces _
           (next (Failing.calls 8 (Failing.fresh two_traces)))).
  - apply history_run.
  - reflexivity.
Defined.

(** Witness of X7: the scenario after the rectangle was dequeued. *)
Lemma queue_is_roster_suffix_witness :
  let s := next (Failing.calls 3 (Failing.fresh two_traces)) in
  (exists done, done ++ traceIdQueue s = ids (allTraces two_traces))
  /\ (forall id, activeTraceId s = Some id -> In id (ids (allTraces two_traces))).
Proof.
  apply (queue_is_roster_suffix Z unit unit unit is4PointRectangle
           minimizeTurnsWithFilteredLabels balanceZShapes Failing.Sub
           Failing.create Failing.step Failing.solved Failing.failed
           Failing.getOutput two_traces
           (effects (Failing.calls 3 (Failing.fresh two_traces)))).
  apply history_run.
Defined.

(** Witness of X8: the call that minimizes the zig-zag. *)
Lemma step_writes_in_place_witness :
  let s := next (Failing.calls 3 (Failing.fresh two_traces)) in
  JsMap.keys (tracesMap (next (Failing.advance s))) = JsMap.keys (tracesMap s)
  /\ (forall id, (forall rest, traceIdQueue s <> id :: rest) ->
      JsMap.get id (tracesMap (next (Failing.advance s)))
      = JsMap.get id (tracesMap s)).
Proof.
  apply (step_writes_in_place Z unit unit unit is4PointRectangle
           minimizeTurnsWithFilteredLabels balanceZShapes Failing.Sub
           Failing.create Failing.step Failing.solved Failing.failed
           Failing.getOutput
           (next (Failing.calls 3 (Failing.fresh two_traces)))).
  reflexivity.
Defined.

(** Witness of X9: the per-trace phases on the rectangle alone. *)
Lemma all_rectangles_untouched_witness :
  let s := next (Failing.calls 2 (Failing.fresh only_rectangle)) in
  tracesMap (next (Failing.calls 4 s)) = tracesMap s
  /\ getOutput (next (Failing.calls 4 s)) = getOutput s
  /\ forall p id, ~ In (TransformApplied p id) (effects (Failing.calls 4 s)).
Proof.
  apply (all_rectangles_untouched Z unit unit unit is4PointRectangle
           minimizeTurnsWithFilteredLabels balanceZShapes Failing.Sub
           Failing.create Failing.step Failing.solved Failing.failed
           Failing.getOutput
           (next (Failing.calls 2 (Failing.fresh only_rectangle))) 4).
  - reflexivity.
  - vm_compute. discriminate.
  - simpl. repeat constructor.
Defined.

(** Witness of X10: five calls with the sub-solver that never reports. *)
Lemma stalled_subsolver_blocks_witness :
  let r := Stalling.calls 5 (Stalling.fresh two_traces) in
  threw r = false
  /\ solved (next r) = false
  /\ pipelineStep (next r) = untangling_traces
  /\ getOutput (next r) = allTraces two_traces
  /\ tracesMap (next r) = tracesMap (Stalling.fresh two_traces)
  /\ traceIdQueue (next r) = ids (allTraces two_traces).
Proof.
  apply (stalled_subsolver_blocks Z unit unit unit is4PointRectangle
           minimizeTurnsWithFilteredLabels balanceZShapes Stalling.Sub
           Stalling.create Stalling.step Stalling.solved Stalling.failed
           Stalling.getOutput two_traces 5).
  intros k. split; reflexivity.
Defined.

(** Witness of X11: the two traces of the scenario. *)
Lemma constructor_files_every_trace_witness :
  let s := Failing.fresh two_traces in
  JsMap.values (tracesMap s) = allTraces two_traces
  /\ JsMap.keys (tracesMap s) = ids (allTraces two_traces)
  /\ (forall t, In t (allTraces two_traces) ->
      JsMap.get (mspPairId t) (tracesMap s) = Some t)
  /\ getOutput s = allTraces two_traces
  /\ traceIdQueue s = ids (allTraces two_traces).
Proof.
  apply (constructor_files_every_trace Z unit unit unit Failing.Sub two_traces).
  simpl. repeat constructor; simpl; intuition discriminate.
Defined.

(** Witness of X13: the zig-zag after nine calls with the sub-solver that
    keeps every trace. *)
Lemma identifiers_kept_by_steps_witness :
  let s := next (Keeping.calls 9 (Keeping.fresh two_traces)) in
  (In "zigzag" (ids (getOutput s)) <-> In "zigzag" (ids (allTraces two_traces)))
  /\ (In "zigzag" (JsMap.keys (tracesMap s))
      <-> In "zigzag" (ids (allTraces two_traces))).
Proof.
  apply (identifiers_kept_by_steps Z unit unit unit is4PointRectangle
           minimizeTurnsWithFilteredLabels balanceZShapes Keeping.Sub
           Keeping.create Keeping.step Keeping.solved Keeping.failed
           Keeping.getOutput two_traces
           minimize_stand_in_keeps_id balance_stand_in_keeps_id
           (fun ts k id _ =>
              eq_ind_r (fun l => In id (ids l) <-> In id (ids ts))
                (iff_refl _) (Keeping_output k (Keeping.create (with_allTraces ts two_traces))))
           (effects (Keeping.calls 9 (Keeping.fresh two_traces)))).
  apply history_run.
Defined.

(** Witness of X14: the finished run of the scenario. *)
Lemma map_rebuilt_from_output_witness :
  let s := next (Failing.calls 8 (Failing.fresh two_traces)) in
  tracesMap s = JsMap.of_entries (entries (getOutput s)).
Proof.
  apply (map_rebuilt_from_output Z unit unit unit is4PointRectangle
           minimizeTurnsWithFilteredLabels balanceZShapes Failing.Sub
           Failing.create Failing.step Failing.solved Failing.failed
           Failing.getOutput two_traces
           minimize_stand_in_keeps_id balance_stand_in_keeps_id
           (effects (Failing.calls 8 (Failing.fresh two_traces)))).
  apply history_run.
Defined.

(** Witness of X15: the picture of the two traces of one net. *)
Lemma visualize_draws_current_traces_witness :
  let s := Failing.fresh same_net in
  exists g base drawn,
    graphics (Failing.show s) = Some g
    /\ lines g = Some (base ++ drawn)
    /\ or_empty (lines (visualizeInputProblem (inputProblem (input s))))
       = Some base
    /\ map (@line_points Z) drawn = map (@tracePath Z) (getOutput s)
    /\ Forall2 (fun l t => strokeColor l = "red"
                           <-> activeTraceId s = Some (mspPairId t))
         drawn (getOutput s)
    /\ points g <> None /\ rects g <> None /\ circles g <> None
    /\ texts g <> None.
Proof.
  apply (visualize_draws_current_traces Z Z.eqb round100 unit unit unit unit
           unit unit unit visualizeInputProblem Failing.Sub Failing.draw
           (Failing.fresh same_net)); reflexivity.
Defined.

End Scenario.
